(** * viewstate/parse.py: the ViewState marker-dispatch decoder

    A shallow embedding of [viewstate/parse.py] and the properties its
    specification states about it.

    Conventions of the embedding.
    - A Python [bytes] object is a [list byte]; [b[i]] is a lookup that raises
      [IndexError] out of range, a slice [b[i:]] / [b[:n]] is [drop] / [take]
      and never raises.
    - A Python [int] is a [Z] (unbounded, as in Python).
    - A Python [str] is the list of its code points.
    - A raised exception is the [Raise] outcome of the [result] monad; the
      statement sequence of a function body is a chain of binds.
    - The recursion of [Parser.parse] through the composite decoders is
      unfolded by a depth counter; [Parser_parse] supplies a depth that is
      proved sufficient for every input, so the counter never runs out.
      The interpreter's own recursion limit and memory limit are not part
      of the model. *)

From Stdlib Require Import ZArith Strings.Byte String Ascii Lia.
From stdpp Require Import base tactics option list numbers pretty gmap.
Import Byte.

Open Scope Z_scope.

(** ** Exceptions and outcomes *)

(** The three messages [parse.py] gives to [ViewStateException]. *)
Inductive vs_message :=
| Unknown_marker (marker : byte)
| Unknown_formatted_string_type_marker (shown : list byte)
| Unknown_type_flag (len : nat) (shown : list byte).

(** The exceptions a decode can raise: the module's own
    [ViewStateException] and the interpreter's built-in ones. *)
Inductive exn :=
| IndexError
| KeyError
| TypeError
| UnboundLocalError
| UnicodeDecodeError
| ViewStateException (msg : vs_message).

Inductive result (A : Type) :=
| Ok (a : A)
| Raise (e : exn)
| OutOfFuel.
Arguments Ok {A} a.
Arguments Raise {A} e.
Arguments OutOfFuel {A}.

#[global] Instance result_bind : MBind result := fun A B f m =>
  match m with
  | Ok a => f a
  | Raise e => Raise e
  | OutOfFuel => OutOfFuel
  end.

#[global] Instance result_ret : MRet result := @Ok.

(** [try: m except KeyError: raise h]. *)
Definition except_KeyError {A} (m : result A) (h : exn) : result A :=
  match m with
  | Raise KeyError => Raise h
  | r => r
  end.

(** [for _ in range(n): s = body(s)], an exception leaving the loop. *)
Fixpoint for_range {S : Type} (n : nat) (body : S → result S) (s : S) : result S :=
  match n with
  | O => Ok s
  | S n' => s' ← body s; for_range n' body s'
  end.

(** ** Bytes, integers and text *)

Abbreviation bytes := (list byte).
Abbreviation pystr := (list Z).

Definition byte_val (x : byte) : Z := Z.of_N (Byte.to_N x).

(** A [str] literal of the source, as code points. *)
Definition lit (s : string) : pystr :=
  (fun a => Z.of_N (N_of_ascii a)) <$> list_ascii_of_string s.

(** ["{}".format(i)] for an [int]. *)
Definition format_int (i : Z) : pystr := lit (pretty i).

(** *** [bytes.decode()]: strict UTF-8 *)

Definition in_range (lo hi x : Z) : bool := (lo <=? x) && (x <=? hi).
Definition is_cont (x : Z) : bool := in_range 0x80 0xBF x.
Definition low6 (x : Z) : Z := Z.land x 0x3F.

Fixpoint utf8_decode (s : bytes) : option pystr :=
  match s with
  | [] => Some []
  | c0 :: s1 =>
    let b0 := byte_val c0 in
    if b0 <? 0x80 then cons b0 <$> utf8_decode s1
    else if in_range 0xC2 0xDF b0 then
      match s1 with
      | c1 :: s2 =>
        let b1 := byte_val c1 in
        if is_cont b1
        then cons (Z.lor (Z.shiftl (Z.land b0 0x1F) 6) (low6 b1)) <$> utf8_decode s2
        else None
      | _ => None
      end
    else if in_range 0xE0 0xEF b0 then
      match s1 with
      | c1 :: c2 :: s3 =>
        let b1 := byte_val c1 in
        let b2 := byte_val c2 in
        let lo := if b0 =? 0xE0 then 0xA0 else 0x80 in
        let hi := if b0 =? 0xED then 0x9F else 0xBF in
        if in_range lo hi b1 && is_cont b2
        then cons (Z.lor (Z.shiftl (Z.land b0 0x0F) 12)
                     (Z.lor (Z.shiftl (low6 b1) 6) (low6 b2))) <$> utf8_decode s3
        else None
      | _ => None
      end
    else if in_range 0xF0 0xF4 b0 then
      match s1 with
      | c1 :: c2 :: c3 :: s4 =>
        let b1 := byte_val c1 in
        let b2 := byte_val c2 in
        let b3 := byte_val c3 in
        let lo := if b0 =? 0xF0 then 0x90 else 0x80 in
        let hi := if b0 =? 0xF4 then 0x8F else 0xBF in
        if in_range lo hi b1 && is_cont b2 && is_cont b3
        then cons (Z.lor (Z.shiftl (Z.land b0 0x07) 18)
                     (Z.lor (Z.shiftl (low6 b1) 12)
                        (Z.lor (Z.shiftl (low6 b2) 6) (low6 b3)))) <$> utf8_decode s4
        else None
      | _ => None
      end
    else None
  end.

Definition bytes_decode (s : bytes) : result pystr :=
  match utf8_decode s with
  | Some t => Ok t
  | None => Raise UnicodeDecodeError
  end.

(** ** Decoded values *)

#[warnings="-register-all"]
Inductive value :=
| VNone
| VStr (s : pystr)
| VInt (n : Z)
| VBool (b : bool)
| VDatetime (year month day : Z)
| VTuple2 (first second : value)
| VTuple3 (first second third : value)
| VList (l : list value)
| VDict (d : list (value * value)).

(** [hash(k)] succeeds: lists and dicts are unhashable, a tuple is hashable
    when its components are. *)
Fixpoint hashable (k : value) : bool :=
  match k with
  | VList _ | VDict _ => false
  | VTuple2 a b => hashable a && hashable b
  | VTuple3 a b c => hashable a && hashable b && hashable c
  | _ => true
  end.

(** The numeric reading of [int] and [bool] ([True == 1], [False == 0]). *)
Definition numeric (k : value) : option Z :=
  match k with
  | VInt n => Some n
  | VBool b => Some (if b then 1 else 0)
  | _ => None
  end.

(** Python's [==] on the values a dict can hold as keys.  [d[k] = v] hashes
    [k] first, so the comparison is only ever reached with hashable
    operands; on the unhashable ones this function is never consulted. *)
Fixpoint key_eq (x y : value) : bool :=
  match x, y with
  | VNone, VNone => true
  | VStr s, VStr t => bool_decide (s = t)
  | (VInt _ | VBool _), (VInt _ | VBool _) => bool_decide (numeric x = numeric y)
  | VDatetime y1 m1 d1, VDatetime y2 m2 d2 =>
    bool_decide (y1 = y2) && bool_decide (m1 = m2) && bool_decide (d1 = d2)
  | VTuple2 a b, VTuple2 c d => key_eq a c && key_eq b d
  | VTuple3 a b c, VTuple3 d e f => key_eq a d && key_eq b e && key_eq c f
  | _, _ => false
  end.

(** The dict as its insertion-ordered item list.  Storing under a key equal
    to a present one keeps the present key object and replaces its value. *)
Fixpoint dict_store (d : list (value * value)) (k v : value) : list (value * value) :=
  match d with
  | [] => [(k, v)]
  | (k', v') :: d' =>
    if key_eq k' k then (k', v) :: d' else (k', v') :: dict_store d' k v
  end.

(** [d[k] = v]. *)
Definition dict_setitem (d : list (value * value)) (k v : value)
  : result (list (value * value)) :=
  if hashable k then Ok (dict_store d k v) else Raise TypeError.

(** [l[idx] = val] on a list, [idx] non-negative. *)
Definition list_setitem (l : list value) (idx : Z) (val : value) : result (list value) :=
  if idx <? Z.of_nat (length l) then Ok (<[Z.to_nat idx := val]> l) else Raise IndexError.

(** ** Primitive decoders *)

(** [Integer.parse].  The loop state [(n, bits, i)] over the fixed buffer [b]
    is carried as [(n, bits)] and the unread suffix [b[i:]]. *)
Fixpoint Integer_while (n bits : Z) (b : bytes) : result (Z * bytes) :=
  if bits <? 32 then
    match b with
    | [] => Raise IndexError
    | c :: b' =>
      let tmp := byte_val c in
      let n := Z.lor n (Z.shiftl (Z.land tmp 0x7f) bits) in
      if Z.land tmp 0x80 =? 0 then Ok (n, b')
      else Integer_while n (bits + 7) b'
    end
  else Ok (n, b).

Definition Integer_parse (b : bytes) : result (Z * bytes) :=
  Integer_while 0 0 b.

(** [String.parse]. *)
Definition String_parse (b : bytes) : result (pystr * bytes) :=
  match b with
  | [] => Raise IndexError
  | _ :: _ =>
    '(n, remain) ← Integer_parse b;
    let s := take (Z.to_nat n) remain in
    t ← bytes_decode s;
    Ok (t, drop (Z.to_nat n) remain)
  end.

(** ** The fixed-grammar decoders *)

(** [Const.parse], for a subclass whose [const] attribute is [const]. *)
Definition Const_parse (const : value) (remain : bytes) : result (value * bytes) :=
  Ok (const, remain).

(** The local variable [enum] of [Enum.parse] holds a [str] or an [int]. *)
Inductive str_or_int :=
| IsStr (s : pystr)
| IsInt (i : Z).

(** ["{}".format(x)]. *)
Definition format_arg (x : str_or_int) : pystr :=
  match x with
  | IsStr s => s
  | IsInt i => format_int i
  end.

(** [Enum.parse].  When the first byte is none of 0x29, 0x2a, 0x2b neither
    branch binds [remain], and evaluating the argument of
    [Integer.parse(remain)] raises [UnboundLocalError]. *)
Definition Enum_parse (b : bytes) : result (value * bytes) :=
  match b with
  | [] => Raise IndexError
  | c :: b1 =>
    '(enum, remain) ←
      (if (byte_val c =? 0x29) || (byte_val c =? 0x2a) then
         '(s, remain) ← String_parse b1; Ok (IsStr s, remain)
       else if byte_val c =? 0x2b then
         '(i, remain) ← Integer_parse b1; Ok (IsInt i, remain)
       else Raise UnboundLocalError);
    '(val, remain) ← Integer_parse remain;
    let final := lit "Enum: " ++ format_arg enum ++ lit ", val: " ++ format_int val in
    Ok (VStr final, remain)
  end.

(** [Color.parse]. *)
Definition Color_parse (b : bytes) : result (value * bytes) :=
  Ok (VStr (lit "Color: unknown"), drop 2 b).

(** [Datetime.parse]. *)
Definition Datetime_parse (b : bytes) : result (value * bytes) :=
  Ok (VDatetime 2000 1 1, drop 8 b).

(** [Unit.parse]. *)
Definition Unit_parse (b : bytes) : result (value * bytes) :=
  Ok (VStr (lit "Unit: "), drop 12 b).

(** [RGBA.parse]: [format] raises [IndexError] when [b[:4]] supplies fewer
    than four arguments. *)
Definition RGBA_parse (b : bytes) : result (value * bytes) :=
  match take 4 b with
  | [r; g; bl; a] =>
    Ok (VStr (lit "RGBA(" ++ format_int (byte_val r) ++ lit "," ++
              format_int (byte_val g) ++ lit "," ++
              format_int (byte_val bl) ++ lit "," ++
              format_int (byte_val a) ++ lit ")"), drop 4 b)
  | _ => Raise IndexError
  end.

(** [StringRef.parse]. *)
Definition StringRef_parse (b : bytes) : result (value * bytes) :=
  '(val, remain) ← Integer_parse b;
  Ok (VStr (lit "Stringref #" ++ format_int val), remain).

(** [FormattedString.parse]. *)
Definition FormattedString_parse (b : bytes) : result (value * bytes) :=
  match b with
  | [] => Raise IndexError
  | c :: b1 =>
    if byte_val c =? 0x29 then
      '(s1, remain) ← String_parse b1;
      '(s2, remain) ← String_parse remain;
      Ok (VStr (lit "Formatted string: " ++ s2 ++ lit " " ++ s1), remain)
    else if byte_val c =? 0x2b then
      '(i, remain) ← Integer_parse b1;
      '(s, remain) ← String_parse remain;
      Ok (VStr (lit "Formatted string: " ++ s ++ lit " type ref " ++ format_int i),
          remain)
    else
      Raise (ViewStateException (Unknown_formatted_string_type_marker (take 20 b)))
  end.

(** [Type.parse]. *)
Definition Type_parse (b : bytes) : result (value * bytes) :=
  match b with
  | [] => Raise IndexError
  | c :: b1 =>
    if (byte_val c =? 0x29) || (byte_val c =? 0x2a) then
      '(s, remain) ← String_parse b1; Ok (VStr s, remain)
    else if byte_val c =? 0x2b then
      '(i, remain) ← Integer_parse b1; Ok (VInt i, remain)
    else
      Raise (ViewStateException (Unknown_type_flag (length b) (take 20 b)))
  end.

(** [StringArray.parse]. *)
Definition StringArray_body (st : list value * bytes) : result (list value * bytes) :=
  let '(l, remain) := st in
  match remain with
  | [] => Raise IndexError
  | c :: remain1 =>
    if byte_val c =? 0 then Ok (l ++ [VStr []], remain1)
    else '(val, remain) ← String_parse remain; Ok (l ++ [VStr val], remain)
  end.

Definition StringArray_parse (b : bytes) : result (value * bytes) :=
  '(n, remain) ← Integer_parse b;
  '(l, remain) ← for_range (Z.to_nat n) StringArray_body ([], remain);
  Ok (VList l, remain).

(** ** The registry *)

(** The classes [ParserMeta] registers: those with a [marker] attribute. *)
Inductive parser_class :=
| NoneConst | EmptyConst | ZeroConst | TrueConst | FalseConst
| Integer | String_ | Enum | Color | Pair | Triplet | Datetime | Unit
| RGBA | StringArray | Array | StringRef | FormattedString
| SparseArray | Dict | TypedArray.

(** [Parser.registry[marker]]. *)
Definition registry (marker : byte) : result parser_class :=
  match marker with
  | x64 => Ok NoneConst
  | x65 => Ok EmptyConst
  | x66 => Ok ZeroConst
  | x67 => Ok TrueConst
  | x68 => Ok FalseConst
  | x02 => Ok Integer
  | x05 | x1e => Ok String_
  | x0b => Ok Enum
  | x0a => Ok Color
  | x0f => Ok Pair
  | x10 => Ok Triplet
  | x06 => Ok Datetime
  | x1b => Ok Unit
  | x09 => Ok RGBA
  | x15 => Ok StringArray
  | x16 => Ok Array
  | x1f => Ok StringRef
  | x28 => Ok FormattedString
  | x3c => Ok SparseArray
  | x18 => Ok Dict
  | x14 => Ok TypedArray
  | _ => Raise KeyError
  end.

(** ** The composite decoders

    [P] stands for the re-entrant call of [Parser.parse]. *)

Section Composite.
Variable P : bytes → result (value * bytes).

(** [Pair.parse]. *)
Definition Pair_parse (b : bytes) : result (value * bytes) :=
  '(first, remain) ← P b;
  '(second, remain) ← P remain;
  Ok (VTuple2 first second, remain).

(** [Triplet.parse]. *)
Definition Triplet_parse (b : bytes) : result (value * bytes) :=
  '(first, remain) ← P b;
  '(second, remain) ← P remain;
  '(third, remain) ← P remain;
  Ok (VTuple3 first second third, remain).

(** The loop body shared by [Array.parse] and [TypedArray.parse]. *)
Definition Array_body (st : list value * bytes) : result (list value * bytes) :=
  let '(l, remain) := st in
  '(val, remain) ← P remain;
  Ok (l ++ [val], remain).

(** [Array.parse]. *)
Definition Array_parse (b : bytes) : result (value * bytes) :=
  '(n, remain) ← Integer_parse b;
  '(l, remain) ← for_range (Z.to_nat n) Array_body ([], remain);
  Ok (VList l, remain).

(** [SparseArray.parse]. *)
Definition SparseArray_body (st : list value * bytes) : result (list value * bytes) :=
  let '(l, remain) := st in
  '(idx, remain) ← Integer_parse remain;
  '(val, remain) ← P remain;
  l ← list_setitem l idx val;
  Ok (l, remain).

Definition SparseArray_parse (b : bytes) : result (value * bytes) :=
  '(type, remain) ← Type_parse b;
  '(length, remain) ← Integer_parse remain;
  '(n, remain) ← Integer_parse remain;
  let l := replicate (Z.to_nat length) VNone in
  '(l, remain) ← for_range (Z.to_nat n) SparseArray_body (l, remain);
  Ok (VList l, remain).

(** [Dict.parse]. *)
Definition Dict_body (st : list (value * value) * bytes)
  : result (list (value * value) * bytes) :=
  let '(d, remain) := st in
  '(k, remain) ← P remain;
  '(v, remain) ← P remain;
  d ← dict_setitem d k v;
  Ok (d, remain).

Definition Dict_parse (b : bytes) : result (value * bytes) :=
  match b with
  | [] => Raise IndexError
  | c :: remain =>
    let n := byte_val c in
    '(d, remain) ← for_range (Z.to_nat n) Dict_body ([], remain);
    Ok (VDict d, remain)
  end.

(** [TypedArray.parse]. *)
Definition TypedArray_parse (b : bytes) : result (value * bytes) :=
  '(typeval, remain) ← Type_parse b;
  '(n, remain) ← Integer_parse remain;
  '(l, remain) ← for_range (Z.to_nat n) Array_body ([], remain);
  Ok (VList l, remain).

(** ** The dispatch core *)

(** [cls().parse(remain)], the result as the value the caller receives. *)
Definition class_parse (cls : parser_class) (remain : bytes) : result (value * bytes) :=
  match cls with
  | NoneConst => Const_parse VNone remain
  | EmptyConst => Const_parse (VStr []) remain
  | ZeroConst => Const_parse (VInt 0) remain
  | TrueConst => Const_parse (VBool true) remain
  | FalseConst => Const_parse (VBool false) remain
  | Integer => '(n, remain) ← Integer_parse remain; Ok (VInt n, remain)
  | String_ => '(s, remain) ← String_parse remain; Ok (VStr s, remain)
  | Enum => Enum_parse remain
  | Color => Color_parse remain
  | Pair => Pair_parse remain
  | Triplet => Triplet_parse remain
  | Datetime => Datetime_parse remain
  | Unit => Unit_parse remain
  | RGBA => RGBA_parse remain
  | StringArray => StringArray_parse remain
  | Array => Array_parse remain
  | StringRef => StringRef_parse remain
  | FormattedString => FormattedString_parse remain
  | SparseArray => SparseArray_parse remain
  | Dict => Dict_parse remain
  | TypedArray => TypedArray_parse remain
  end.

(** The body of [Parser.parse]. *)
Definition Parser_body (b : bytes) : result (value * bytes) :=
  match b with
  | [] => Raise IndexError
  | marker :: remain =>
    except_KeyError
      (cls ← registry marker; class_parse cls remain)
      (ViewStateException (Unknown_marker marker))
  end.
End Composite.

(** [Parser.parse] with its recursion unfolded [depth] times. *)
Fixpoint Parser_depth (depth : nat) : bytes → result (value * bytes) :=
  match depth with
  | O => fun _ => OutOfFuel
  | S d => Parser_body (Parser_depth d)
  end.

(** [Parser.parse]: a value nested deeper than the input is long does not
    exist, each level consuming its marker byte. *)
Definition Parser_parse (b : bytes) : result (value * bytes) :=
  Parser_depth (S (length b)) b.

(** * Notions the properties are stated with *)

(** The byte announces a successor: its high bit is set. *)
Definition continues (c : byte) : bool := negb (Z.land (byte_val c) 0x80 =? 0).

(** The little-endian base-128 number written by the low seven bits of each
    byte. *)
Fixpoint le_base128 (l : bytes) : Z :=
  match l with
  | [] => 0
  | c :: l' => Z.lor (Z.land (byte_val c) 0x7f) (Z.shiftl (le_base128 l') 7)
  end.

(** [D] consumes a prefix: what it returns as remaining bytes is a suffix
    of what it was given. *)
Definition consumes {A} (D : bytes → result (A * bytes)) : Prop :=
  ∀ b v r, D b = Ok (v, r) → r `suffix_of` b.

(** The byte whose value is [z], for [z] from 0 to 255. *)
Definition byte_of (z : Z) : byte := default x00 (Byte.of_N (Z.to_N z)).

(** The canonical encoding the specification refers to ([parse.py] has no
    encoder): seven bits per byte, least significant group first, the
    continuation bit 0x80 on every byte but the last. *)
Fixpoint encode_varint_go (groups : nat) (v : Z) : bytes :=
  match groups with
  | O => []
  | S groups' =>
    if v <? 128 then [byte_of v]
    else byte_of (Z.lor (Z.land v 0x7f) 0x80) :: encode_varint_go groups' (Z.shiftr v 7)
  end.

Definition encode_varint (v : Z) : bytes :=
  encode_varint_go (S (Z.to_nat (Z.log2 v))) v.

(** The truncation law for a decoder [D]: whenever [D] decodes [E], leaving
    [r], every prefix of [E] shorter than what [D] consumed makes [D] raise
    [IndexError], the exception an out-of-range [b[i]] raises. *)
Definition truncation_law {A} (D : bytes → result (A * bytes)) : Prop :=
  ∀ E v r p,
    D E = Ok (v, r) →
    p `prefix_of` E →
    (length p < length E - length r)%nat →
    D p = Raise IndexError.

(** [decodes D n r xs r']: starting at [r], the item decoder [D] succeeds
    [n] times in a row, yields the items [xs] and leaves [r']. *)
Inductive decodes {A} (D : bytes → result (A * bytes))
  : nat → bytes → list A → bytes → Prop :=
| decodes_done r : decodes D 0 r [] r
| decodes_next n r x r1 xs r' :
    D r = Ok (x, r1) → decodes D n r1 xs r' → decodes D (S n) r (x :: xs) r'.

(** The element rule in the specification's words: a zero byte is consumed
    and stands for the empty string, anything else is a length-prefixed
    string. *)
Inductive string_elements : nat → bytes → list value → bytes → Prop :=
| elements_done r : string_elements 0 r [] r
| elements_zero n r vs r' :
    string_elements n r vs r' →
    string_elements (S n) (x00 :: r) (VStr [] :: vs) r'
| elements_string n c r s r1 vs r' :
    c ≠ x00 →
    String_parse (c :: r) = Ok (s, r1) →
    string_elements n r1 vs r' →
    string_elements (S n) (c :: r) (VStr s :: vs) r'.

(** One dictionary entry: a key, then a value, both by the dispatch. *)
Definition dict_entry (P : bytes → result (value * bytes)) (r : bytes)
  : result ((value * value) * bytes) :=
  '(k, r1) ← P r;
  '(v, r2) ← P r1;
  Ok ((k, v), r2).

(** The stores [d[k] = v] of the entries, in order. *)
Definition dict_of (d : list (value * value)) (kvs : list (value * value))
  : list (value * value) :=
  foldl (λ d kv, dict_store d kv.1 kv.2) d kvs.

(** The key is an ordered sequence or a mapping. *)
Definition is_container (k : value) : bool :=
  match k with
  | VList _ | VDict _ => true
  | _ => false
  end.

(** One sparse-array entry: a varint index, then a value by the dispatch. *)
Definition sparse_entry (P : bytes → result (value * bytes)) (r : bytes)
  : result ((Z * value) * bytes) :=
  '(idx, r1) ← Integer_parse r;
  '(val, r2) ← P r1;
  Ok ((idx, val), r2).

(** The assignments [l[idx] = val] of the entries, in order. *)
Definition sparse_of (l : list value) (es : list (Z * value)) : list value :=
  foldl (λ l e, <[Z.to_nat e.1 := e.2]> l) l es.

(** ** The metaclass

    [ParserMeta.__init__] runs once for every class statement of the module,
    in the order of the statements.  The first class, [Parser], has no
    [registry] attribute yet and receives the empty dict; every later class
    finds that dict through inheritance.  A class for which
    [hasattr(cls, 'marker')] holds is stored under its marker, or under each
    marker of its tuple. *)

(** The classes of the module: the three without a marker and the
    registered ones. *)
Inductive py_class :=
| Parser_class
| Const_class
| Type_class
| Registered (cls : parser_class).

(** The [marker] attribute: an [int], or a tuple of them. *)
Inductive marker_attr :=
| marker_int (m : Z)
| marker_tuple (ms : list Z).

(** [ParserMeta.__init__(cls, ...)], on the [registry] the class sees
    ([None] when [hasattr(cls, 'registry')] fails) and the [marker] it sees
    ([None] when [hasattr(cls, 'marker')] fails). *)
Definition ParserMeta_init (cls : py_class) (marker : option marker_attr)
    (seen : option (gmap Z py_class)) : gmap Z py_class :=
  let registry := default ∅ seen in
  match marker with
  | None => registry
  | Some a =>
    let marker := match a with marker_int m => [m] | marker_tuple ms => ms end in
    foldl (λ registry m, <[m := cls]> registry) registry marker
  end.

(** The class statements of [parse.py], top to bottom.  No class of the
    module inherits a [marker] from a base, so the marker a class sees is
    the one its own body assigns. *)
Definition class_statements : list (py_class * option marker_attr) :=
  [ (Parser_class, None);
    (Const_class, None);
    (Registered NoneConst, Some (marker_int 0x64));
    (Registered EmptyConst, Some (marker_int 0x65));
    (Registered ZeroConst, Some (marker_int 0x66));
    (Registered TrueConst, Some (marker_int 0x67));
    (Registered FalseConst, Some (marker_int 0x68));
    (Registered Integer, Some (marker_int 0x02));
    (Registered String_, Some (marker_tuple [0x05; 0x1e]));
    (Registered Enum, Some (marker_int 0x0b));
    (Registered Color, Some (marker_int 0x0a));
    (Registered Pair, Some (marker_int 0x0f));
    (Registered Triplet, Some (marker_int 0x10));
    (Registered Datetime, Some (marker_int 0x06));
    (Registered Unit, Some (marker_int 0x1b));
    (Registered RGBA, Some (marker_int 0x09));
    (Registered StringArray, Some (marker_int 0x15));
    (Registered Array, Some (marker_int 0x16));
    (Registered StringRef, Some (marker_int 0x1f));
    (Registered FormattedString, Some (marker_int 0x28));
    (Registered SparseArray, Some (marker_int 0x3c));
    (Registered Dict, Some (marker_int 0x18));
    (Type_class, None);
    (Registered TypedArray, Some (marker_int 0x14)) ].

(** [Parser.registry] once the module is imported. *)
Definition module_registry : option (gmap Z py_class) :=
  foldl (λ seen stmt, Some (ParserMeta_init stmt.1 stmt.2 seen)) None class_statements.

(** The markers the class statements assign, in order. *)
Definition assigned_markers : list Z :=
  class_statements ≫= λ stmt,
    match stmt.2 with
    | None => []
    | Some (marker_int m) => [m]
    | Some (marker_tuple ms) => ms
    end.

(** ** Shapes of decoded values *)

(** The kind of value the decoder of a class returns. *)
Definition shape (cls : parser_class) (v : value) : Prop :=
  match cls with
  | NoneConst => v = VNone
  | EmptyConst => v = VStr []
  | ZeroConst => v = VInt 0
  | TrueConst => v = VBool true
  | FalseConst => v = VBool false
  | Integer => ∃ n, v = VInt n ∧ 0 ≤ n < 2 ^ 35
  | String_ | Enum | Color | Unit | RGBA | StringRef | FormattedString =>
    ∃ s, v = VStr s
  | Pair => ∃ first second, v = VTuple2 first second
  | Triplet => ∃ first second third, v = VTuple3 first second third
  | Datetime => v = VDatetime 2000 1 1
  | StringArray => ∃ ss : list pystr, v = VList (VStr <$> ss)
  | Array | TypedArray | SparseArray => ∃ l, v = VList l
  | Dict => ∃ d, v = VDict d
  end.

(** No key of the dict equals a later one. *)
Fixpoint distinct_keys (d : list (value * value)) : bool :=
  match d with
  | [] => true
  | (k, _) :: d' => forallb (λ kv, negb (key_eq k kv.1)) d' && distinct_keys d'
  end.

(** ** Kinds of exceptions *)

(** The exceptions every decoder may raise on malformed input. *)
Definition tame (e : exn) : Prop :=
  e = IndexError ∨ e = UnicodeDecodeError ∨ ∃ msg, e = ViewStateException msg.

(** The byte that has to be in the input for the exception to be raised. *)
Definition needs_marker (b : bytes) (e : exn) : Prop :=
  (e = TypeError ∧ x18 ∈ b) ∨ (e = UnboundLocalError ∧ x0b ∈ b).

(** * Properties *)

(** ** The scenarios of the specification *)

Example Integer_parse_5 : Integer_parse [x05] = Ok (5, []).
Proof. reflexivity. Qed.

Example String_parse_abc :
  String_parse [x03; x61; x62; x63; xff] = Ok (lit "abc", [xff]).
Proof. reflexivity. Qed.

Example String_parse_euro :
  String_parse [x03; xe2; x82; xac] = Ok ([0x20AC], []).
Proof. reflexivity. Qed.

Example String_parse_surrogate :
  String_parse [x03; xed; xa0; x80] = Raise UnicodeDecodeError.
Proof. reflexivity. Qed.

Example parse_none : Parser_parse [x64] = Ok (VNone, []).
Proof. reflexivity. Qed.

Example parse_int_5 : Parser_parse [x02; x05] = Ok (VInt 5, []).
Proof. reflexivity. Qed.

Example parse_int_268 : Parser_parse [x02; x8c; x02] = Ok (VInt 268, []).
Proof. reflexivity. Qed.

Example parse_array : Parser_parse [x16; x02; x66; x67] = Ok (VList [VInt 0; VBool true], []).
Proof. reflexivity. Qed.

Example parse_string_array : Parser_parse [x15; x01; x00] = Ok (VList [VStr []], []).
Proof. reflexivity. Qed.

Example parse_dict :
  Parser_parse [x18; x02; x66; x65; x66; x65] = Ok (VDict [(VInt 0, VStr [])], []).
Proof. reflexivity. Qed.

Example parse_dict_bool_int_key :
  Parser_parse [x18; x02; x66; x65; x68; x64] = Ok (VDict [(VInt 0, VNone)], []).
Proof. reflexivity. Qed.

Example parse_unknown_marker :
  Parser_parse [x00] = Raise (ViewStateException (Unknown_marker x00)).
Proof. reflexivity. Qed.

Example parse_sparse :
  Parser_parse [x3c; x2b; x00; x03; x01; x01; x67] =
  Ok (VList [VNone; VBool true; VNone], []).
Proof. reflexivity. Qed.

Example parse_rgba :
  Parser_parse [x09; x01; x02; x03; xff] = Ok (VStr (lit "RGBA(1,2,3,255)"), []).
Proof. reflexivity. Qed.

(** ** The [result] monad and the [for] loop *)

Lemma bind_Ok {A B} (m : result A) (f : A → result B) (y : B) :
  m ≫= f = Ok y ↔ ∃ x, m = Ok x ∧ f x = Ok y.
Proof.
  destruct m as [x|e|]; simpl; split; try (intros [? [? ?]]); eauto; try discriminate.
  congruence.
Qed.

(** Splits a successful chain of binds into its successful steps. *)
Ltac bind_inv H :=
  let x := fresh "x" in
  let E := fresh "E" in
  apply bind_Ok in H as [x [E H]];
  try (destruct x as [? ?]); simpl in H.

Ltac binds_inv :=
  repeat match goal with
         | H : (_ ≫= _) = Ok _ |- _ => bind_inv H
         | H : Ok _ = Ok _ |- _ => injection H as H; simplify_eq
         | H : Raise _ = Ok _ |- _ => discriminate H
         | H : OutOfFuel = Ok _ |- _ => discriminate H
         end.

Section ForRange.
Context {S : Type}.
Implicit Types (body : S → result S) (I : S → Prop).

(** A loop invariant kept by every successful iteration holds on exit. *)
Lemma for_range_invariant I body n s s' :
  (∀ s1 s2, I s1 → body s1 = Ok s2 → I s2) →
  I s → for_range n body s = Ok s' → I s'.
Proof.
  intros Hstep. revert s. induction n as [|n IH]; simpl; intros s Hs H.
  - by injection H as <-.
  - bind_inv H. eauto.
Qed.

(** Two bodies that agree wherever the invariant holds run the same loop. *)
Lemma for_range_ext I body1 body2 n s :
  (∀ s1, I s1 → body1 s1 = body2 s1) →
  (∀ s1 s2, I s1 → body1 s1 = Ok s2 → I s2) →
  I s → for_range n body1 s = for_range n body2 s.
Proof.
  intros Heq Hstep. revert s. induction n as [|n IH]; simpl; intros s Hs; [done|].
  rewrite <- (Heq s Hs). destruct (body1 s) as [s2| |] eqn:E; simpl; eauto.
Qed.

Lemma for_range_fuel I body n s :
  (∀ s1, I s1 → body s1 ≠ OutOfFuel) →
  (∀ s1 s2, I s1 → body s1 = Ok s2 → I s2) →
  I s → for_range n body s ≠ OutOfFuel.
Proof.
  intros Hne Hstep. revert s. induction n as [|n IH]; simpl; intros s Hs; [done|].
  pose proof (Hne s Hs). destruct (body s) as [s2| |] eqn:E; simpl; eauto.
Qed.

(** A loop of more than [j] iterations whose first [j] succeed and whose
    next one raises, raises that exception. *)
Lemma for_range_raises_after body (j : nat) : ∀ n s s' e,
  (j < n)%nat → for_range j body s = Ok s' → body s' = Raise e →
  for_range n body s = Raise e.
Proof.
  induction j as [|j IH]; intros n s s' e Hn Hj He;
    (destruct n as [|n]; [lia|]); simpl in *.
  - injection Hj as <-. by rewrite He.
  - apply bind_Ok in Hj as (s1 & Hs1 & Hj). rewrite Hs1; simpl.
    apply (IH n s1 s' e); [lia|done..].
Qed.

End ForRange.

(** ** Bit-level facts *)

Lemma byte_val_range c : 0 ≤ byte_val c < 256.
Proof. unfold byte_val. pose proof (Byte.to_N_bounded c). lia. Qed.

Lemma lor_below m a b : 0 ≤ m → 0 ≤ a < 2 ^ m → 0 ≤ b < 2 ^ m → 0 ≤ Z.lor a b < 2 ^ m.
Proof.
  intros Hm Ha Hb. split; [apply Z.lor_nonneg; lia|].
  destruct (decide (a = 0)) as [->|]; [rewrite Z.lor_0_l; lia|].
  destruct (decide (b = 0)) as [->|]; [rewrite Z.lor_0_r; lia|].
  assert (0 < Z.lor a b).
  { pose proof (proj2 (Z.lor_nonneg a b) (conj (proj1 Ha) (proj1 Hb))).
    destruct (decide (Z.lor a b = 0)) as [E|]; [|lia].
    apply Z.lor_eq_0_iff in E. lia. }
  apply Z.log2_lt_pow2; [done|].
  rewrite Z.log2_lor by lia.
  apply Z.max_lub_lt; apply Z.log2_lt_pow2; lia.
Qed.

Lemma low7_range x : 0 ≤ Z.land x 0x7f < 128.
Proof.
  change 0x7f with (Z.ones 7). rewrite Z.land_ones by lia.
  apply Z.mod_pos_bound. lia.
Qed.

Lemma low7_small x : 0 ≤ x < 128 → Z.land x 0x7f = x.
Proof.
  intros. change 0x7f with (Z.ones 7). rewrite Z.land_ones by lia.
  apply Z.mod_small. lia.
Qed.

Lemma shiftl_below a m k : 0 ≤ k → 0 ≤ m → 0 ≤ a < 2 ^ m → 0 ≤ Z.shiftl a k < 2 ^ (m + k).
Proof.
  intros. rewrite Z.shiftl_mul_pow2, Z.pow_add_r by lia.
  assert (0 < 2 ^ k) by (apply Z.pow_pos_nonneg; lia). nia.
Qed.

(** The low seven bits of [v] and the rest of [v], put back at offset [k]. *)
Lemma split7 v k :
  0 ≤ k →
  Z.lor (Z.shiftl (Z.land v 0x7f) k) (Z.shiftl (Z.shiftr v 7) (k + 7)) = Z.shiftl v k.
Proof.
  intros Hk. apply Z.bits_inj'. intros i Hi.
  rewrite Z.lor_spec, !Z.shiftl_spec by lia.
  destruct (decide (i < k)) as [Hlt|Hge].
  - by rewrite !(Z.testbit_neg_r _ (i - _)) by lia.
  - rewrite Z.land_spec. change 0x7f with (Z.ones 7).
    rewrite Z.testbit_ones by lia.
    destruct (decide (i - k < 7)) as [Hlo|Hhi].
    + rewrite (Z.testbit_neg_r _ (i - (k + 7))) by lia.
      replace (0 <=? i - k) with true by (symmetry; apply Z.leb_le; lia).
      replace (i - k <? 7) with true by (symmetry; apply Z.ltb_lt; lia).
      simpl. by rewrite andb_true_r, orb_false_r.
    + replace (i - k <? 7) with false by (symmetry; apply Z.ltb_ge; lia).
      rewrite andb_false_r, andb_false_r. simpl.
      rewrite Z.shiftr_spec by lia. f_equal. lia.
Qed.

(** ** The variable-length integer *)

Lemma Integer_while_exit n bits b : 32 ≤ bits → Integer_while n bits b = Ok (n, b).
Proof.
  intros H. destruct b; simpl; by replace (bits <? 32) with false by (symmetry; apply Z.ltb_ge; lia).
Qed.

Lemma Integer_while_nil n bits : bits < 32 → Integer_while n bits [] = Raise IndexError.
Proof. intros H. simpl. by replace (bits <? 32) with true by (symmetry; apply Z.ltb_lt; lia). Qed.

Lemma Integer_while_cons n bits c b :
  bits < 32 →
  Integer_while n bits (c :: b) =
  if continues c
  then Integer_while (Z.lor n (Z.shiftl (Z.land (byte_val c) 0x7f) bits)) (bits + 7) b
  else Ok (Z.lor n (Z.shiftl (Z.land (byte_val c) 0x7f) bits), b).
Proof.
  intros H. simpl. replace (bits <? 32) with true by (symmetry; apply Z.ltb_lt; lia).
  unfold continues. by destruct (Z.land (byte_val c) 128 =? 0).
Qed.

Lemma le_base128_range l : 0 ≤ le_base128 l < 2 ^ (7 * Z.of_nat (length l)).
Proof.
  induction l as [|c l IH]; simpl le_base128; [simpl; lia|].
  rewrite length_cons, Nat2Z.inj_succ.
  replace (7 * Z.succ (Z.of_nat (length l))) with (7 * Z.of_nat (length l) + 7) by lia.
  apply lor_below; [lia| |apply shiftl_below; lia].
  pose proof (low7_range (byte_val c)).
  assert (2 ^ 7 ≤ 2 ^ (7 * Z.of_nat (length l) + 7)) by (apply Z.pow_le_mono_r; lia).
  change (2 ^ 7) with 128 in *. lia.
Qed.

(** The loop entered at its [k]-th iteration, on bytes that continue until
    a terminating byte or until the fifth byte is consumed. *)
Lemma Integer_while_run p : ∀ n (k : nat) c r,
  Forall (λ x, continues x = true) p →
  (k + length p ≤ 4)%nat →
  continues c = false ∨ (k + length p = 4)%nat →
  Integer_while n (7 * Z.of_nat k) (p ++ c :: r) =
  Ok (Z.lor n (Z.shiftl (le_base128 (p ++ [c])) (7 * Z.of_nat k)), r).
Proof.
  induction p as [|a p IH]; intros n k c r Hp Hk Hend; simpl app.
  - rewrite Integer_while_cons by (simpl in Hk; lia).
    simpl le_base128. rewrite Z.shiftl_0_l, Z.lor_0_r.
    destruct (continues c) eqn:Hc; [|done].
    destruct Hend as [?|Hend]; [done|]. simpl in Hend.
    apply Integer_while_exit. lia.
  - apply Forall_cons in Hp as [Ha Hp]. simpl in Hk.
    rewrite Integer_while_cons, Ha by lia.
    replace (7 * Z.of_nat k + 7) with (7 * Z.of_nat (Datatypes.S k)) by lia.
    rewrite IH; [|done|lia|destruct Hend as [?|?]; [by left|right; simpl in *; lia]].
    do 2 f_equal. simpl le_base128.
    rewrite Z.shiftl_lor, Z.shiftl_shiftl, Z.lor_assoc by lia.
    do 2 f_equal. lia.
Qed.

(** Every successful run has that shape. *)
Lemma Integer_while_inv b : ∀ n (k : nat) v r,
  (k ≤ 4)%nat →
  Integer_while n (7 * Z.of_nat k) b = Ok (v, r) →
  ∃ p c, b = p ++ c :: r ∧ Forall (λ x, continues x = true) p ∧
         (k + length p ≤ 4)%nat ∧ (continues c = false ∨ (k + length p = 4)%nat).
Proof.
  induction b as [|a b IH]; intros n k v r Hk H.
  - rewrite Integer_while_nil in H by lia. discriminate.
  - rewrite Integer_while_cons in H by lia.
    destruct (continues a) eqn:Ha.
    + destruct (decide (k = 4%nat)) as [->|Hne].
      * rewrite Integer_while_exit in H by lia. injection H as _ <-.
        exists [], a. simpl. repeat split; auto.
      * replace (7 * Z.of_nat k + 7) with (7 * Z.of_nat (Datatypes.S k)) in H by lia.
        apply IH in H as (p & c & -> & Hp & Hlen & Hend); [|lia].
        exists (a :: p), c. simpl. repeat split; [by constructor|lia|].
        destruct Hend as [?|?]; [by left|right; lia].
    + injection H as _ <-. exists [], a. simpl. repeat split; auto. lia.
Qed.

Lemma Integer_parse_run p c r :
  Forall (λ x, continues x = true) p →
  (length p ≤ 4)%nat →
  continues c = false ∨ length p = 4%nat →
  Integer_parse (p ++ c :: r) = Ok (le_base128 (p ++ [c]), r).
Proof.
  intros Hp Hlen Hend. unfold Integer_parse.
  change (Integer_while 0 0) with (Integer_while 0 (7 * Z.of_nat 0)).
  rewrite Integer_while_run by (simpl; auto).
  by rewrite Z.lor_0_l, Z.shiftl_0_r.
Qed.

Lemma Integer_parse_inv b v r :
  Integer_parse b = Ok (v, r) →
  ∃ p c, b = p ++ c :: r ∧ Forall (λ x, continues x = true) p ∧
         (length p ≤ 4)%nat ∧ (continues c = false ∨ length p = 4%nat) ∧
         v = le_base128 (p ++ [c]).
Proof.
  intros H. pose proof H as H'.
  apply (Integer_while_inv b 0 0%nat) in H as (p & c & -> & Hp & Hlen & Hend); [|lia].
  simpl in Hlen, Hend. rewrite Integer_parse_run in H' by done.
  injection H' as <-. by exists p, c.
Qed.

Lemma Integer_parse_suffix b v r :
  Integer_parse b = Ok (v, r) → r `suffix_of` b ∧ (length r < length b)%nat.
Proof.
  intros (p & c & -> & _)%Integer_parse_inv. split.
  - by exists (p ++ [c]); rewrite <- app_assoc.
  - rewrite length_app. simpl. lia.
Qed.

Lemma Integer_parse_range b v r : Integer_parse b = Ok (v, r) → 0 ≤ v < 2 ^ 35.
Proof.
  intros (p & c & -> & _ & Hlen & _ & ->)%Integer_parse_inv.
  pose proof (le_base128_range (p ++ [c])) as H.
  rewrite length_app in H. simpl in H.
  assert (2 ^ (7 * Z.of_nat (length p + 1)) ≤ 2 ^ 35) by (apply Z.pow_le_mono_r; lia).
  lia.
Qed.

(** ** Every decoder returns a suffix of its input *)

Lemma suffix_drop_of (n : nat) (r b : bytes) : r `suffix_of` b → drop n r `suffix_of` b.
Proof. intros. etrans; [apply suffix_drop|done]. Qed.

Lemma suffix_same (b : bytes) : b `suffix_of` b.
Proof. done. Qed.

Lemma suffix_chain (r m b : bytes) : r `suffix_of` m → m `suffix_of` b → r `suffix_of` b.
Proof. intros. by etrans. Qed.

Create HintDb consume discriminated.
#[local] Hint Resolve suffix_drop suffix_drop_of suffix_cons_r suffix_same : consume.

Lemma Integer_parse_consumes : consumes Integer_parse.
Proof. intros b v r H. by apply Integer_parse_suffix in H as [? _]. Qed.

Lemma String_parse_consumes : consumes String_parse.
Proof.
  intros b v r H. unfold String_parse in H. destruct b as [|c b]; [done|].
  binds_inv. apply Integer_parse_consumes in E. auto with consume.
Qed.

#[local] Hint Resolve Integer_parse_consumes String_parse_consumes : consume.

(** Chains the suffix facts of the steps of a successful run. *)
Ltac chain_suffix :=
  repeat match goal with
         | H : Integer_parse _ = Ok _ |- _ => apply Integer_parse_consumes in H
         | H : String_parse _ = Ok _ |- _ => apply String_parse_consumes in H
         end;
  repeat match goal with
         | H : ?r `suffix_of` ?m |- ?r `suffix_of` _ =>
           apply (suffix_chain _ _ _ H); clear H
         | H : ?r `suffix_of` ?m |- drop _ ?r `suffix_of` _ =>
           apply suffix_drop_of, (suffix_chain _ _ _ H); clear H
         end;
  auto with consume.

Lemma Type_parse_consumes : consumes Type_parse.
Proof.
  intros b v r H. unfold Type_parse in H. destruct b as [|c b]; [done|].
  repeat case_match; binds_inv; chain_suffix.
Qed.

Lemma Enum_parse_consumes : consumes Enum_parse.
Proof.
  intros b v r H. unfold Enum_parse in H. destruct b as [|c b]; [done|].
  binds_inv. repeat case_match; binds_inv; chain_suffix.
Qed.

Lemma Color_parse_consumes : consumes Color_parse.
Proof. intros b v r [= _ <-]. apply suffix_drop. Qed.

Lemma Datetime_parse_consumes : consumes Datetime_parse.
Proof. intros b v r [= _ <-]. apply suffix_drop. Qed.

Lemma Unit_parse_consumes : consumes Unit_parse.
Proof. intros b v r [= _ <-]. apply suffix_drop. Qed.

Lemma RGBA_parse_consumes : consumes RGBA_parse.
Proof.
  intros b v r H. unfold RGBA_parse in H.
  repeat case_match; try discriminate. injection H as _ <-. apply suffix_drop.
Qed.

Lemma StringRef_parse_consumes : consumes StringRef_parse.
Proof. intros b v r H. unfold StringRef_parse in H. binds_inv. chain_suffix. Qed.

Lemma FormattedString_parse_consumes : consumes FormattedString_parse.
Proof.
  intros b v r H. unfold FormattedString_parse in H. destruct b as [|c b]; [done|].
  repeat case_match; binds_inv; chain_suffix.
Qed.

Lemma StringArray_body_consumes l remain l' remain' :
  StringArray_body (l, remain) = Ok (l', remain') → remain' `suffix_of` remain.
Proof.
  unfold StringArray_body. intros H. destruct remain as [|c r]; [done|].
  case_match; binds_inv; chain_suffix.
Qed.

(** The remaining bytes of a loop state only shrink. *)
Lemma loop_consumes {L} (body : L * bytes → result (L * bytes)) n l remain l' remain' :
  (∀ l1 r1 l2 r2, body (l1, r1) = Ok (l2, r2) → r2 `suffix_of` r1) →
  for_range n body (l, remain) = Ok (l', remain') → remain' `suffix_of` remain.
Proof.
  intros Hbody H.
  apply (for_range_invariant (λ st, st.2 `suffix_of` remain) _ _ _ _) in H; [done| |done].
  intros [l1 r1] [l2 r2] Hr1 E. simpl in *. apply (suffix_chain _ r1); eauto.
Qed.

Lemma StringArray_parse_consumes : consumes StringArray_parse.
Proof.
  intros b v r H. unfold StringArray_parse in H. binds_inv.
  apply loop_consumes in E0; [|apply StringArray_body_consumes]. chain_suffix.
Qed.

#[local] Hint Resolve Type_parse_consumes : consume.

Section CompositeConsumes.
Variable P : bytes → result (value * bytes).
Hypothesis P_consumes : consumes P.

Lemma Pair_parse_consumes : consumes (Pair_parse P).
Proof.
  intros b v r H. unfold Pair_parse in H. binds_inv.
  etrans; eapply P_consumes; eauto.
Qed.

Lemma Triplet_parse_consumes : consumes (Triplet_parse P).
Proof.
  intros b v r H. unfold Triplet_parse in H. binds_inv.
  etrans; [|etrans]; eapply P_consumes; eauto.
Qed.

Lemma Array_body_consumes l remain l' remain' :
  Array_body P (l, remain) = Ok (l', remain') → remain' `suffix_of` remain.
Proof. unfold Array_body. intros H. binds_inv. eapply P_consumes; eauto. Qed.

Lemma SparseArray_body_consumes l remain l' remain' :
  SparseArray_body P (l, remain) = Ok (l', remain') → remain' `suffix_of` remain.
Proof.
  unfold SparseArray_body. intros H. binds_inv.
  apply P_consumes in E0. chain_suffix.
Qed.

Lemma Dict_body_consumes d remain d' remain' :
  Dict_body P (d, remain) = Ok (d', remain') → remain' `suffix_of` remain.
Proof.
  unfold Dict_body. intros H. binds_inv.
  etrans; eapply P_consumes; eauto.
Qed.

Lemma Array_parse_consumes : consumes (Array_parse P).
Proof.
  intros b v r H. unfold Array_parse in H. binds_inv.
  apply loop_consumes in E0; [|apply Array_body_consumes]. chain_suffix.
Qed.

Lemma TypedArray_parse_consumes : consumes (TypedArray_parse P).
Proof.
  intros b v r H. unfold TypedArray_parse in H. binds_inv.
  apply loop_consumes in E1; [|apply Array_body_consumes].
  apply Type_parse_consumes in E. chain_suffix.
Qed.

Lemma SparseArray_parse_consumes : consumes (SparseArray_parse P).
Proof.
  intros b v r H. unfold SparseArray_parse in H. binds_inv.
  apply loop_consumes in E2; [|apply SparseArray_body_consumes].
  apply Type_parse_consumes in E. chain_suffix.
Qed.

Lemma Dict_parse_consumes : consumes (Dict_parse P).
Proof.
  intros b v r H. unfold Dict_parse in H. destruct b as [|c b]; [done|].
  binds_inv. apply loop_consumes in E; [|apply Dict_body_consumes].
  auto with consume.
Qed.

Lemma class_parse_consumes cls : consumes (class_parse P cls).
Proof.
  intros b v r H. destruct cls; simpl in H;
    try (injection H as _ <-; done).
  - binds_inv. chain_suffix.
  - binds_inv. chain_suffix.
  - by eapply Enum_parse_consumes.
  - by eapply Color_parse_consumes.
  - by eapply Pair_parse_consumes.
  - by eapply Triplet_parse_consumes.
  - by eapply Datetime_parse_consumes.
  - by eapply Unit_parse_consumes.
  - by eapply RGBA_parse_consumes.
  - by eapply StringArray_parse_consumes.
  - by eapply Array_parse_consumes.
  - by eapply StringRef_parse_consumes.
  - by eapply FormattedString_parse_consumes.
  - by eapply SparseArray_parse_consumes.
  - by eapply Dict_parse_consumes.
  - by eapply TypedArray_parse_consumes.
Qed.

Lemma except_KeyError_Ok {A} (m : result A) h x :
  except_KeyError m h = Ok x → m = Ok x.
Proof. destruct m as [?|[]|]; simpl; congruence. Qed.

(** The dispatch consumes the marker and then what the class consumes. *)
Lemma Parser_body_consumes b v r :
  Parser_body P b = Ok (v, r) → r `suffix_of` b ∧ (length r < length b)%nat.
Proof.
  unfold Parser_body. intros H. destruct b as [|marker remain]; [done|].
  apply except_KeyError_Ok in H. binds_inv.
  apply class_parse_consumes in H.
  split; [by apply suffix_cons_r|]. apply suffix_length in H. simpl. lia.
Qed.
End CompositeConsumes.

Lemma Parser_depth_consumes d : consumes (Parser_depth d).
Proof.
  induction d as [|d IH]; intros b v r H; [done|].
  simpl in H. by apply Parser_body_consumes in H as [? _].
Qed.

(** ** The depth counter is sufficient *)

Lemma bind_ext {A B} (m : result A) (f g : A → result B) :
  (∀ x, m = Ok x → f x = g x) → m ≫= f = m ≫= g.
Proof. destruct m; simpl; auto. Qed.

Lemma bind_fuel {A B} (m : result A) (f : A → result B) :
  m ≠ OutOfFuel → (∀ x, m = Ok x → f x ≠ OutOfFuel) → m ≫= f ≠ OutOfFuel.
Proof. destruct m; simpl; auto. Qed.

Lemma Integer_while_fuel b : ∀ n bits, Integer_while n bits b ≠ OutOfFuel.
Proof.
  induction b as [|c b IH]; intros n bits; destruct (decide (bits < 32)).
  - by rewrite Integer_while_nil.
  - by rewrite Integer_while_exit by lia.
  - rewrite Integer_while_cons by done. by destruct (continues c).
  - by rewrite Integer_while_exit by lia.
Qed.

Lemma Integer_parse_fuel b : Integer_parse b ≠ OutOfFuel.
Proof. apply Integer_while_fuel. Qed.

Lemma bytes_decode_fuel s : bytes_decode s ≠ OutOfFuel.
Proof. unfold bytes_decode. by destruct (utf8_decode s). Qed.

Create HintDb fuel discriminated.
#[local] Hint Resolve Integer_parse_fuel bytes_decode_fuel : fuel.

(** Walks a chain of binds none of whose steps runs out of depth. *)
Ltac fuel_free :=
  repeat match goal with
         | |- Ok _ ≠ OutOfFuel => discriminate
         | |- Raise _ ≠ OutOfFuel => discriminate
         | |- (_ ≫= _) ≠ OutOfFuel =>
           apply bind_fuel; [|first [intros [? ?] ?|intros ? ?]]
         | |- (if ?c then _ else _) ≠ OutOfFuel => destruct c
         | |- (match ?x with [] => _ | _ :: _ => _ end) ≠ OutOfFuel => destruct x
         end;
  auto with fuel.

Lemma String_parse_fuel b : String_parse b ≠ OutOfFuel.
Proof. unfold String_parse. fuel_free. Qed.

#[local] Hint Resolve String_parse_fuel : fuel.

Lemma Type_parse_fuel b : Type_parse b ≠ OutOfFuel.
Proof. unfold Type_parse. fuel_free. Qed.

Lemma Enum_parse_fuel b : Enum_parse b ≠ OutOfFuel.
Proof. unfold Enum_parse. fuel_free. Qed.

Lemma RGBA_parse_fuel b : RGBA_parse b ≠ OutOfFuel.
Proof. unfold RGBA_parse. by repeat case_match. Qed.

Lemma StringRef_parse_fuel b : StringRef_parse b ≠ OutOfFuel.
Proof. unfold StringRef_parse. fuel_free. Qed.

Lemma FormattedString_parse_fuel b : FormattedString_parse b ≠ OutOfFuel.
Proof. unfold FormattedString_parse. fuel_free. Qed.

Lemma StringArray_body_fuel st : StringArray_body st ≠ OutOfFuel.
Proof. destruct st as [l remain]. unfold StringArray_body. fuel_free. Qed.

Lemma StringArray_parse_fuel b : StringArray_parse b ≠ OutOfFuel.
Proof.
  unfold StringArray_parse. fuel_free.
  apply (for_range_fuel (λ _, True)); auto using StringArray_body_fuel.
Qed.

#[local] Hint Resolve Type_parse_fuel Enum_parse_fuel RGBA_parse_fuel
  StringRef_parse_fuel FormattedString_parse_fuel StringArray_parse_fuel : fuel.

Lemma list_setitem_fuel l idx val : list_setitem l idx val ≠ OutOfFuel.
Proof. unfold list_setitem. by case_match. Qed.

Lemma dict_setitem_fuel d k v : dict_setitem d k v ≠ OutOfFuel.
Proof. unfold dict_setitem. by case_match. Qed.

#[local] Hint Resolve list_setitem_fuel dict_setitem_fuel : fuel.

Lemma registry_fuel marker : registry marker ≠ OutOfFuel.
Proof. by destruct marker. Qed.

(** Turns the successful steps in the context into length facts. *)
Ltac step_lengths P_consumes :=
  repeat match goal with
         | H : Integer_parse _ = Ok _ |- _ =>
           apply Integer_parse_consumes, suffix_length in H
         | H : String_parse _ = Ok _ |- _ =>
           apply String_parse_consumes, suffix_length in H
         | H : Type_parse _ = Ok _ |- _ =>
           apply Type_parse_consumes, suffix_length in H
         | H : _ _ = Ok (_, _) |- _ =>
           apply P_consumes, suffix_length in H
         end.

Section Depth.
Variables P Q : bytes → result (value * bytes).
Variable N : nat.
Hypothesis P_consumes : consumes P.

(** A loop whose states never hold more than [N] remaining bytes. *)
Lemma loop_ext {L} (bodyP bodyQ : L * bytes → result (L * bytes)) n l remain :
  (∀ l1 r1, (length r1 ≤ N)%nat → bodyP (l1, r1) = bodyQ (l1, r1)) →
  (∀ l1 r1 l2 r2, bodyP (l1, r1) = Ok (l2, r2) → r2 `suffix_of` r1) →
  (length remain ≤ N)%nat →
  for_range n bodyP (l, remain) = for_range n bodyQ (l, remain).
Proof.
  intros Heq Hcons Hlen.
  apply (for_range_ext (λ st, (length st.2 ≤ N)%nat)); [| |done].
  - intros [l1 r1]; simpl. apply Heq.
  - intros [l1 r1] [l2 r2] H1 E; simpl in *.
    apply Hcons, suffix_length in E. lia.
Qed.

Lemma loop_fuel {L} (body : L * bytes → result (L * bytes)) n l remain :
  (∀ l1 r1, (length r1 ≤ N)%nat → body (l1, r1) ≠ OutOfFuel) →
  (∀ l1 r1 l2 r2, body (l1, r1) = Ok (l2, r2) → r2 `suffix_of` r1) →
  (length remain ≤ N)%nat →
  for_range n body (l, remain) ≠ OutOfFuel.
Proof.
  intros Hne Hcons Hlen.
  apply (for_range_fuel (λ st, (length st.2 ≤ N)%nat)); [| |done].
  - intros [l1 r1]; simpl. apply Hne.
  - intros [l1 r1] [l2 r2] H1 E; simpl in *.
    apply Hcons, suffix_length in E. lia.
Qed.

Section Agree.
Hypothesis agree : ∀ c, (length c ≤ N)%nat → P c = Q c.

(** Replaces the calls of [Q] by calls of [P], step by step. *)
Ltac agree_steps :=
  repeat first
    [ rewrite <- agree by (step_lengths P_consumes; simpl in *; lia)
    | apply bind_ext; first [intros [? ?] ?|intros ? ?] ];
  try done.

Lemma Pair_parse_ext b : (length b ≤ N)%nat → Pair_parse P b = Pair_parse Q b.
Proof. intros. unfold Pair_parse. agree_steps. Qed.

Lemma Triplet_parse_ext b : (length b ≤ N)%nat → Triplet_parse P b = Triplet_parse Q b.
Proof. intros. unfold Triplet_parse. agree_steps. Qed.

Lemma Array_body_ext l r : (length r ≤ N)%nat → Array_body P (l, r) = Array_body Q (l, r).
Proof. intros. unfold Array_body. agree_steps. Qed.

Lemma SparseArray_body_ext l r :
  (length r ≤ N)%nat → SparseArray_body P (l, r) = SparseArray_body Q (l, r).
Proof. intros. unfold SparseArray_body. agree_steps. Qed.

Lemma Dict_body_ext d r : (length r ≤ N)%nat → Dict_body P (d, r) = Dict_body Q (d, r).
Proof. intros. unfold Dict_body. agree_steps. Qed.

Lemma Array_parse_ext b : (length b ≤ N)%nat → Array_parse P b = Array_parse Q b.
Proof.
  intros. unfold Array_parse. apply bind_ext. intros [n r] E.
  rewrite (loop_ext (Array_body P) (Array_body Q));
    [done|by apply Array_body_ext|by apply Array_body_consumes|].
  step_lengths P_consumes. lia.
Qed.

Lemma TypedArray_parse_ext b :
  (length b ≤ N)%nat → TypedArray_parse P b = TypedArray_parse Q b.
Proof.
  intros. unfold TypedArray_parse.
  apply bind_ext. intros [t r0] E0. apply bind_ext. intros [n r] E.
  rewrite (loop_ext (Array_body P) (Array_body Q));
    [done|by apply Array_body_ext|by apply Array_body_consumes|].
  step_lengths P_consumes. lia.
Qed.

Lemma SparseArray_parse_ext b :
  (length b ≤ N)%nat → SparseArray_parse P b = SparseArray_parse Q b.
Proof.
  intros. unfold SparseArray_parse.
  apply bind_ext. intros [t r0] E0. apply bind_ext. intros [len r1] E1.
  apply bind_ext. intros [n r] E.
  rewrite (loop_ext (SparseArray_body P) (SparseArray_body Q));
    [done|by apply SparseArray_body_ext|by apply SparseArray_body_consumes|].
  step_lengths P_consumes. lia.
Qed.

Lemma Dict_parse_ext b : (length b ≤ N)%nat → Dict_parse P b = Dict_parse Q b.
Proof.
  intros. unfold Dict_parse. destruct b as [|c b]; [done|].
  rewrite (loop_ext (Dict_body P) (Dict_body Q));
    [done|by apply Dict_body_ext|by apply Dict_body_consumes|].
  simpl in *. lia.
Qed.

Lemma class_parse_ext cls b :
  (length b ≤ N)%nat → class_parse P cls b = class_parse Q cls b.
Proof.
  intros. destruct cls; simpl; try done;
    auto using Pair_parse_ext, Triplet_parse_ext, Array_parse_ext,
      TypedArray_parse_ext, SparseArray_parse_ext, Dict_parse_ext.
Qed.

Lemma Parser_body_ext b : (length b ≤ Datatypes.S N)%nat → Parser_body P b = Parser_body Q b.
Proof.
  intros. unfold Parser_body. destruct b as [|marker remain]; [done|].
  f_equal. apply bind_ext. intros cls _. apply class_parse_ext. simpl in *. lia.
Qed.
End Agree.

Section Fuel.
Hypothesis P_fuel : ∀ c, (length c ≤ N)%nat → P c ≠ OutOfFuel.

Ltac fuel_steps :=
  fuel_free;
  try (apply P_fuel; step_lengths P_consumes; simpl in *; lia).

Lemma Array_body_fuel l r : (length r ≤ N)%nat → Array_body P (l, r) ≠ OutOfFuel.
Proof. intros. unfold Array_body. fuel_steps. Qed.

Lemma SparseArray_body_fuel l r :
  (length r ≤ N)%nat → SparseArray_body P (l, r) ≠ OutOfFuel.
Proof. intros. unfold SparseArray_body. fuel_steps. Qed.

Lemma Dict_body_fuel d r : (length r ≤ N)%nat → Dict_body P (d, r) ≠ OutOfFuel.
Proof. intros. unfold Dict_body. fuel_steps. Qed.

Lemma class_parse_fuel cls b :
  (length b ≤ N)%nat → class_parse P cls b ≠ OutOfFuel.
Proof.
  intros. destruct cls; simpl; try done; auto with fuel.
  - fuel_free.
  - fuel_free.
  - unfold Pair_parse. fuel_steps.
  - unfold Triplet_parse. fuel_steps.
  - unfold Array_parse. fuel_steps.
    apply loop_fuel; [apply Array_body_fuel|by apply Array_body_consumes|].
    step_lengths P_consumes. lia.
  - unfold SparseArray_parse. fuel_steps.
    apply loop_fuel; [apply SparseArray_body_fuel|by apply SparseArray_body_consumes|].
    step_lengths P_consumes. lia.
  - unfold Dict_parse. destruct b as [|c b]; [done|]. fuel_steps.
    apply loop_fuel; [apply Dict_body_fuel|by apply Dict_body_consumes|].
    simpl in *. lia.
  - unfold TypedArray_parse. fuel_steps.
    apply loop_fuel; [apply Array_body_fuel|by apply Array_body_consumes|].
    step_lengths P_consumes. lia.
Qed.

Lemma Parser_body_fuel b : (length b ≤ Datatypes.S N)%nat → Parser_body P b ≠ OutOfFuel.
Proof.
  intros. unfold Parser_body. destruct b as [|marker remain]; [done|].
  assert (class_fuel : ∀ cls, class_parse P cls remain ≠ OutOfFuel)
    by (intros; apply class_parse_fuel; simpl in *; lia).
  pose proof (registry_fuel marker).
  destruct (registry marker) as [cls|[]|]; simpl; try done.
  specialize (class_fuel cls).
  by destruct (class_parse P cls remain) as [?|[]|].
Qed.
End Fuel.
End Depth.

(** Any two depths beyond the input's length give the same outcome. *)
Lemma Parser_depth_stable d1 : ∀ d2 b,
  (length b < d1)%nat → (length b < d2)%nat → Parser_depth d1 b = Parser_depth d2 b.
Proof.
  induction d1 as [|d1 IH]; intros d2 b H1 H2; [lia|].
  destruct d2 as [|d2]; [lia|]. simpl.
  destruct b as [|marker remain]; [done|]. simpl in H1, H2.
  apply (Parser_body_ext _ _ (length remain)); [apply Parser_depth_consumes| |done].
  intros c Hc. apply IH; lia.
Qed.

(** [Parser.parse] satisfies its own defining equation: the nested calls
    are calls of [Parser.parse] itself. *)
Lemma Parser_parse_unfold b : Parser_parse b = Parser_body Parser_parse b.
Proof.
  unfold Parser_parse at 1. simpl.
  destruct b as [|marker remain]; [done|].
  apply (Parser_body_ext _ _ (length remain)); [apply Parser_depth_consumes| |done].
  intros c Hc. apply Parser_depth_stable; simpl; lia.
Qed.

Lemma Parser_depth_total d : ∀ b, (length b < d)%nat → Parser_depth d b ≠ OutOfFuel.
Proof.
  induction d as [|d IH]; intros b Hd; [lia|]. simpl.
  destruct b as [|marker remain]; [done|]. simpl in Hd.
  apply (Parser_body_fuel _ (length remain)); [apply Parser_depth_consumes| |done].
  intros c Hc. apply IH. lia.
Qed.

(** [Parser.parse] always comes to an outcome: a value or an exception. *)
Lemma Parser_parse_total b : Parser_parse b ≠ OutOfFuel.
Proof. apply Parser_depth_total. lia. Qed.

Lemma Parser_parse_consumes : consumes Parser_parse.
Proof. intros b v r. apply Parser_depth_consumes. Qed.

(** ** The canonical varint encoding and its decoding *)

Example encode_varint_268 : encode_varint 268 = [x8c; x02].
Proof. reflexivity. Qed.

Lemma byte_val_of z : 0 ≤ z < 256 → byte_val (byte_of z) = z.
Proof.
  intros Hz. unfold byte_val, byte_of.
  destruct (Byte.of_N (Z.to_N z)) as [c|] eqn:E; simpl.
  - apply Byte.to_of_N in E. lia.
  - apply Byte.of_N_None_iff in E. lia.
Qed.

Lemma last_group_terminates v : 0 ≤ v < 128 → continues (byte_of v) = false.
Proof.
  intros Hv. unfold continues. rewrite byte_val_of by lia.
  rewrite <- (low7_small v) by done. rewrite <- Z.land_assoc.
  by change (Z.land 127 128) with 0; rewrite Z.land_0_r.
Qed.

Lemma group_range v : 0 ≤ Z.lor (Z.land v 0x7f) 0x80 < 256.
Proof.
  pose proof (low7_range v). change 256 with (2 ^ 8).
  apply lor_below; simpl; lia.
Qed.

Lemma group_continues v : continues (byte_of (Z.lor (Z.land v 0x7f) 0x80)) = true.
Proof.
  unfold continues. rewrite byte_val_of by apply group_range.
  rewrite Z.land_lor_distr_l, <- Z.land_assoc.
  change (Z.land 127 128) with 0. change (Z.land 128 128) with 128.
  by rewrite Z.land_0_r.
Qed.

Lemma group_low7 v :
  Z.land (byte_val (byte_of (Z.lor (Z.land v 0x7f) 0x80))) 0x7f = Z.land v 0x7f.
Proof.
  rewrite byte_val_of by apply group_range.
  rewrite Z.land_lor_distr_l, <- Z.land_assoc.
  change (Z.land 127 127) with 127. change (Z.land 128 127) with 0.
  by rewrite Z.lor_0_r.
Qed.

(** Decoding an encoding of at most [j] groups, entered at iteration [k]. *)
Lemma Integer_while_encode groups : ∀ (j k : nat) v n rest,
  0 ≤ v < 2 ^ (7 * Z.of_nat j) →
  (1 ≤ j ≤ groups)%nat → (k + j ≤ 5)%nat →
  Integer_while n (7 * Z.of_nat k) (encode_varint_go groups v ++ rest) =
  Ok (Z.lor n (Z.shiftl v (7 * Z.of_nat k)), rest).
Proof.
  induction groups as [|groups IH]; intros j k v n rest Hv Hj Hk; [lia|].
  simpl encode_varint_go. destruct (v <? 128) eqn:Hsmall.
  - apply Z.ltb_lt in Hsmall. simpl app.
    rewrite Integer_while_cons, last_group_terminates by lia.
    by rewrite byte_val_of, low7_small by lia.
  - apply Z.ltb_ge in Hsmall. simpl app.
    assert (2 ≤ j)%nat.
    { destruct (decide (j = 1%nat)) as [->|]; [|lia]. change (2 ^ _) with 128 in Hv. lia. }
    rewrite Integer_while_cons, group_continues, group_low7 by lia.
    replace (7 * Z.of_nat k + 7) with (7 * Z.of_nat (S k)) by lia.
    rewrite (IH (j - 1)%nat); [| |lia|lia].
    + rewrite <- Z.lor_assoc.
      replace (7 * Z.of_nat (S k)) with (7 * Z.of_nat k + 7) by lia.
      by rewrite split7 by lia.
    + rewrite Z.shiftr_div_pow2 by lia. split; [apply Z.div_pos; lia|].
      apply Z.div_lt_upper_bound; [lia|].
      rewrite <- Z.pow_add_r by lia.
      replace (7 + 7 * Z.of_nat (j - 1)) with (7 * Z.of_nat j) by lia. lia.
Qed.

Lemma Integer_parse_encode v rest :
  0 ≤ v < 2 ^ 28 → Integer_parse (encode_varint v ++ rest) = Ok (v, rest).
Proof.
  intros Hv. unfold Integer_parse, encode_varint.
  assert (0 ≤ Z.log2 v < 28) as Hlog.
  { split; [apply Z.log2_nonneg|].
    destruct (decide (v = 0)) as [->|]; [done|]. apply Z.log2_lt_pow2; lia. }
  change (Integer_while 0 0) with (Integer_while 0 (7 * Z.of_nat 0)).
  rewrite (Integer_while_encode _ (Z.to_nat (Z.log2 v / 7 + 1))).
  - by rewrite Z.lor_0_l, Z.shiftl_0_r.
  - split; [lia|]. destruct (decide (v = 0)) as [->|]; [done|].
    apply Z.log2_lt_pow2; [lia|]. rewrite Z2Nat.id by (pose proof (Z.div_pos (Z.log2 v) 7); lia).
    pose proof (Z.mod_pos_bound (Z.log2 v) 7). pose proof (Z.div_mod (Z.log2 v) 7). lia.
  - pose proof (Z.div_pos (Z.log2 v) 7).
    assert (Z.log2 v / 7 ≤ Z.log2 v) by (apply Z.div_le_upper_bound; lia). lia.
  - assert (Z.log2 v / 7 < 4) by (apply Z.div_lt_upper_bound; lia).
    pose proof (Z.div_pos (Z.log2 v) 7). lia.
Qed.

(** C3.  Varint round trip: for every unsigned [v] below [2^28], decoding
    the canonical varint encoding of [v] returns [v] and an empty remainder;
    in particular the bytes [8c 02] decode to [268]. *)
Theorem varint_round_trip :
  (∀ v, 0 ≤ v < 2 ^ 28 → Integer_parse (encode_varint v) = Ok (v, [])) ∧
  Integer_parse [x8c; x02] = Ok (268, []).
Proof.
  split; [|reflexivity]. intros v Hv.
  rewrite <- (app_nil_r (encode_varint v)). by apply Integer_parse_encode.
Qed.

Lemma varint_round_trip_witness :
  0 ≤ 268 < 2 ^ 28 ∧ Integer_parse (encode_varint 268) = Ok (268, []).
Proof.
  assert (H : 0 ≤ 268 < 2 ^ 28) by (simpl; lia).
  split; [exact H|]. exact (proj1 varint_round_trip 268 H).
Defined.

(** ** The stopping rule of the varint decoder *)

(** C4 as stated fails: the value of a varint can exceed 32 bits.  The
    fifth byte is read at offset 28 and contributes all seven of its payload
    bits, and the result is not masked. *)
Lemma varint_exceeds_32_bits :
  Integer_parse [xff; xff; xff; xff; x7f] = Ok (2 ^ 35 - 1, []) ∧
  ¬ (∀ b n r, Integer_parse b = Ok (n, r) → n < 2 ^ 32).
Proof.
  split; [reflexivity|]. intros H.
  pose proof (H [xff; xff; xff; xff; x7f] (2 ^ 35 - 1) [] eq_refl) as H'.
  vm_compute in H'. discriminate.
Qed.

(** C4, amended.  The varint decoder stops exactly at the first byte whose
    high bit is clear, or at the fifth byte when the first four all have it
    set; it consumes that byte, hence between one and five bytes; and the
    value, the little-endian base-128 number of the consumed bytes, is an
    unsigned integer below [2^35].  Conversely every input that starts with
    such a run of bytes is decoded. *)
Theorem varint_stopping_rule :
  (∀ b n r, Integer_parse b = Ok (n, r) →
     ∃ p c, b = p ++ c :: r ∧
            Forall (λ x, continues x = true) p ∧
            (length p ≤ 4)%nat ∧
            (continues c = false ∨ length p = 4%nat) ∧
            n = le_base128 (p ++ [c]) ∧ 0 ≤ n < 2 ^ 35) ∧
  (∀ p c r, Forall (λ x, continues x = true) p →
     (length p ≤ 4)%nat →
     continues c = false ∨ length p = 4%nat →
     Integer_parse (p ++ c :: r) = Ok (le_base128 (p ++ [c]), r)).
Proof.
  split.
  - intros b n r H. pose proof (Integer_parse_range _ _ _ H).
    apply Integer_parse_inv in H as (p & c & ? & ? & ? & ? & ?).
    by exists p, c.
  - apply Integer_parse_run.
Qed.

Lemma varint_stopping_rule_witness :
  Integer_parse [x8c; x02; x64] = Ok (268, [x64]) ∧
  (∃ p c, [x8c; x02; x64] = p ++ c :: [x64] ∧
          Forall (λ x, continues x = true) p ∧
          (length p ≤ 4)%nat ∧
          (continues c = false ∨ length p = 4%nat) ∧
          268 = le_base128 (p ++ [c]) ∧ 0 ≤ 268 < 2 ^ 35) ∧
  Integer_parse ([xff; xff; xff; xff] ++ xff :: [x01]) =
  Ok (le_base128 ([xff; xff; xff; xff] ++ [xff]), [x01]).
Proof.
  assert (H : Integer_parse [x8c; x02; x64] = Ok (268, [x64])) by reflexivity.
  split; [exact H|]. split.
  - exact (proj1 varint_stopping_rule _ _ _ H).
  - apply (proj2 varint_stopping_rule [xff; xff; xff; xff] xff [x01]).
    + repeat constructor.
    + simpl. lia.
    + right. reflexivity.
Defined.

(** ** Truncated input *)

(** C1 as stated fails: the slicing decoders do not obey the law.
    [b[2:]], [b[8:]], [b[12:]] and [remain[:n]] are slices, which never
    raise.  Cut short, the colour [0a 91 01] and the string
    [05 03 61 62 63] still decode. *)
Lemma truncation_law_fails :
  Parser_parse [x0a; x91; x01] = Ok (VStr (lit "Color: unknown"), []) ∧
  Parser_parse [x0a; x91] = Ok (VStr (lit "Color: unknown"), []) ∧
  Parser_parse [x05; x03; x61; x62; x63] = Ok (VStr (lit "abc"), []) ∧
  Parser_parse [x05; x03; x61] = Ok (VStr (lit "a"), []) ∧
  ¬ truncation_law Parser_parse ∧
  ¬ truncation_law Color_parse ∧
  ¬ truncation_law Datetime_parse ∧
  ¬ truncation_law Unit_parse ∧
  ¬ truncation_law String_parse.
Proof.
  repeat split; try reflexivity.
  - intros H.
    specialize (H [x0a; x91; x01] (VStr (lit "Color: unknown")) [] [x0a; x91] eq_refl).
    discriminate H; [by exists [x01]|simpl; lia].
  - intros H. specialize (H [x91; x01] (VStr (lit "Color: unknown")) [] [x91] eq_refl).
    discriminate H; [by exists [x01]|simpl; lia].
  - intros H. specialize (H [x00] (VDatetime 2000 1 1) [] [] eq_refl).
    discriminate H; [by exists [x00]|simpl; lia].
  - intros H. specialize (H [x00] (VStr (lit "Unit: ")) [] [] eq_refl).
    discriminate H; [by exists [x00]|simpl; lia].
  - intros H. specialize (H [x03; x61; x62; x63] (lit "abc") [] [x03; x61] eq_refl).
    discriminate H; [by exists [x62; x63]|simpl; lia].
Qed.

Lemma Integer_while_starved p : ∀ n (k : nat),
  Forall (λ x, continues x = true) p → (k + length p ≤ 4)%nat →
  Integer_while n (7 * Z.of_nat k) p = Raise IndexError.
Proof.
  induction p as [|a p IH]; intros n k Hp Hk.
  - apply Integer_while_nil. lia.
  - apply Forall_cons in Hp as [Ha Hp]. simpl in Hk.
    rewrite Integer_while_cons, Ha by lia.
    replace (7 * Z.of_nat k + 7) with (7 * Z.of_nat (S k)) by lia.
    apply IH; [done|lia].
Qed.

Lemma Integer_parse_truncation : truncation_law Integer_parse.
Proof.
  intros E v r p H [q Hq] Hlen.
  apply Integer_parse_inv in H as (p0 & c & -> & Hp0 & Hlen0 & _).
  rewrite length_app in Hlen. simpl in Hlen.
  assert (p = take (length p) p0) as ->.
  { apply (f_equal (take (length p))) in Hq.
    rewrite take_app_le, take_app_length in Hq by lia. done. }
  change (Integer_parse ?x) with (Integer_while 0 (7 * Z.of_nat 0) x).
  apply Integer_while_starved.
  - by apply Forall_take.
  - rewrite length_take. lia.
Qed.

Lemma RGBA_parse_truncation : truncation_law RGBA_parse.
Proof.
  intros E v r p H _ Hlen. unfold RGBA_parse in *.
  destruct (take 4 E) as [|e1 [|e2 [|e3 [|e4 [|]]]]]; try discriminate.
  injection H as _ <-. rewrite length_drop in Hlen.
  assert (length p < 4)%nat by lia.
  destruct p as [|p1 [|p2 [|p3 [|p4 p]]]]; simpl in *; try lia; done.
Qed.

Lemma StringRef_parse_truncation : truncation_law StringRef_parse.
Proof.
  intros E v r p H Hp Hlen. unfold StringRef_parse in *. binds_inv.
  by rewrite (Integer_parse_truncation _ _ _ _ E0 Hp Hlen).
Qed.

(** C1, amended.  The truncation law holds for the decoders that read by
    index: the varint decoder (and the string reference built on it) and
    the RGBA decoder raise [IndexError] on every prefix shorter than what
    they consume, and the dispatch core raises it on the empty input. *)
Theorem truncation_law_indexed_decoders :
  truncation_law Integer_parse ∧
  truncation_law StringRef_parse ∧
  truncation_law RGBA_parse ∧
  Parser_parse [] = Raise IndexError.
Proof.
  auto using Integer_parse_truncation, StringRef_parse_truncation, RGBA_parse_truncation.
Qed.

Lemma truncation_law_indexed_decoders_witness :
  Integer_parse [x8c; x02] = Ok (268, []) ∧
  Integer_parse [x8c] = Raise IndexError ∧
  RGBA_parse [x01; x02; x03] = Raise IndexError.
Proof.
  assert (H : Integer_parse [x8c; x02] = Ok (268, [])) by reflexivity.
  split; [exact H|]. split.
  - apply (proj1 truncation_law_indexed_decoders [x8c; x02] 268 [] [x8c] H).
    + by exists [x02].
    + simpl. lia.
  - apply (proj1 (proj2 (proj2 truncation_law_indexed_decoders))
             [x01; x02; x03; x04] (VStr (lit "RGBA(1,2,3,4)")) [] [x01; x02; x03]).
    + reflexivity.
    + by exists [x04].
    + simpl. lia.
Defined.

(** ** Dispatch through a known marker *)

Lemma Parser_parse_marker marker remain cls :
  registry marker = Ok cls →
  Parser_parse (marker :: remain) =
  except_KeyError (class_parse Parser_parse cls remain)
                  (ViewStateException (Unknown_marker marker)).
Proof. intros H. rewrite Parser_parse_unfold. simpl. by rewrite H. Qed.

Lemma Parser_parse_marker_Ok marker remain cls x :
  registry marker = Ok cls →
  Parser_parse (marker :: remain) = Ok x ↔ class_parse Parser_parse cls remain = Ok x.
Proof.
  intros H. rewrite (Parser_parse_marker _ _ _ H).
  by destruct (class_parse Parser_parse cls remain) as [?|[]|].
Qed.

Lemma Parser_parse_no_KeyError b : Parser_parse b ≠ Raise KeyError.
Proof.
  rewrite Parser_parse_unfold. unfold Parser_body. destruct b as [|marker remain]; [done|].
  by destruct (_ ≫= _) as [?|[]|].
Qed.

(** An exception of a nested decode passes the handler unchanged. *)
Lemma except_KeyError_from_parse {A} (m : result A) h b e :
  Parser_parse b = Raise e → m = Raise e → except_KeyError m h = Raise e.
Proof.
  intros Hb ->. pose proof (Parser_parse_no_KeyError b) as Hne. rewrite Hb in Hne.
  by destruct e.
Qed.

(** ** Prefix consumption *)

(** C8.  Prefix consumption: whenever a decode succeeds, the remaining bytes
    it returns are a suffix of its input, the decoder having consumed the
    prefix in front of it.  This holds for the dispatch core, where at least
    the marker is consumed, for the decoder of every registered class,
    nested element decodes being calls of the dispatch core, and for the
    marker-less varint, string and type-descriptor decoders. *)
Theorem prefix_consumption :
  (∀ b v r, Parser_parse b = Ok (v, r) → ∃ p, b = p ++ r ∧ p ≠ []) ∧
  (∀ cls b v r, class_parse Parser_parse cls b = Ok (v, r) → ∃ p, b = p ++ r) ∧
  (∀ b v r, Integer_parse b = Ok (v, r) → ∃ p, b = p ++ r) ∧
  (∀ b v r, String_parse b = Ok (v, r) → ∃ p, b = p ++ r) ∧
  (∀ b v r, Type_parse b = Ok (v, r) → ∃ p, b = p ++ r).
Proof.
  repeat split.
  - intros b v r H. rewrite Parser_parse_unfold in H.
    apply Parser_body_consumes in H as [[p ->] Hlen]; [|apply Parser_parse_consumes].
    exists p. split; [done|]. intros ->. simpl in Hlen. lia.
  - intros cls b v r H.
    by apply (class_parse_consumes _ Parser_parse_consumes) in H.
  - apply Integer_parse_consumes.
  - apply String_parse_consumes.
  - apply Type_parse_consumes.
Qed.

Lemma prefix_consumption_witness :
  Parser_parse [x16; x02; x66; x67; x64] = Ok (VList [VInt 0; VBool true], [x64]) ∧
  ∃ p, [x16; x02; x66; x67; x64] = p ++ [x64] ∧ p ≠ [].
Proof.
  assert (H : Parser_parse [x16; x02; x66; x67; x64] =
              Ok (VList [VInt 0; VBool true], [x64])) by reflexivity.
  split; [exact H|]. exact (proj1 prefix_consumption _ _ _ H).
Defined.

(** ** The enum sub-marker *)

(** C10.  An enum (marker 0x0b) whose sub-marker byte is none of 0x29, 0x2a
    and 0x2b makes the decode end in [UnboundLocalError], which is neither a
    [ViewStateException] nor any other error the module raises on
    purpose. *)
Theorem enum_submarker_gap c rest :
  byte_val c ≠ 0x29 → byte_val c ≠ 0x2a → byte_val c ≠ 0x2b →
  Enum_parse (c :: rest) = Raise UnboundLocalError ∧
  Parser_parse (x0b :: c :: rest) = Raise UnboundLocalError ∧
  ∀ msg, Parser_parse (x0b :: c :: rest) ≠ Raise (ViewStateException msg).
Proof.
  intros H1 H2 H3.
  assert (E : Enum_parse (c :: rest) = Raise UnboundLocalError).
  { unfold Enum_parse.
    apply Z.eqb_neq in H1, H2, H3. by rewrite H1, H2, H3. }
  assert (E' : Parser_parse (x0b :: c :: rest) = Raise UnboundLocalError).
  { rewrite (Parser_parse_marker x0b _ Enum) by done.
    unfold class_parse. by rewrite E. }
  repeat split; [done..|]. intros msg. by rewrite E'.
Qed.

Lemma enum_submarker_gap_witness :
  Parser_parse [x0b; x00; x05] = Raise UnboundLocalError.
Proof.
  apply (enum_submarker_gap x00 [x05]); vm_compute; discriminate.
Defined.

(** ** The type descriptor of a typed array *)

Lemma TypedArray_parse_descriptor P d t rest :
  Type_parse d = Ok (t, rest) → TypedArray_parse P d = Array_parse P rest.
Proof. intros H. unfold TypedArray_parse, Array_parse. by rewrite H. Qed.

(** C9.  Type-descriptor noninterference: two typed arrays (marker 0x14)
    that differ only in their valid type descriptor, the bytes after the
    descriptor being the same, decode to the same outcome, elements and
    remaining bytes alike; the elements are decoded as those of a plain
    array are, by the dispatch core. *)
Theorem type_descriptor_noninterference d1 d2 t1 t2 rest :
  Type_parse d1 = Ok (t1, rest) →
  Type_parse d2 = Ok (t2, rest) →
  Parser_parse (x14 :: d1) = Parser_parse (x14 :: d2) ∧
  TypedArray_parse Parser_parse d1 = Array_parse Parser_parse rest.
Proof.
  intros H1 H2. split.
  - rewrite !(Parser_parse_marker x14 _ TypedArray) by done. unfold class_parse.
    by rewrite (TypedArray_parse_descriptor _ _ _ _ H1),
               (TypedArray_parse_descriptor _ _ _ _ H2).
  - by apply TypedArray_parse_descriptor with t1.
Qed.

Lemma type_descriptor_noninterference_witness :
  Parser_parse [x14; x29; x01; x61; x02; x66; x67] =
  Parser_parse [x14; x2b; x07; x02; x66; x67] ∧
  Parser_parse [x14; x2b; x07; x02; x66; x67] = Ok (VList [VInt 0; VBool true], []).
Proof.
  split; [|reflexivity].
  apply (type_descriptor_noninterference
           [x29; x01; x61; x02; x66; x67] [x2b; x07; x02; x66; x67]
           (VStr (lit "a")) (VInt 7) [x02; x66; x67]); reflexivity.
Defined.

(** ** The string array *)

Lemma byte_val_zero c : byte_val c = 0 ↔ c = x00.
Proof.
  split; [|by intros ->]. unfold byte_val. intros H.
  pose proof (Byte.of_to_N c) as E.
  replace (Byte.to_N c) with 0%N in E by lia. by injection E.
Qed.

Lemma StringArray_loop n : ∀ l r l' r',
  for_range n StringArray_body (l, r) = Ok (l', r') ↔
  ∃ vs, string_elements n r vs r' ∧ l' = l ++ vs.
Proof.
  induction n as [|n IH]; intros l r l' r'; simpl.
  - split.
    + intros [= <- <-]. exists []. split; [constructor|by rewrite app_nil_r].
    + intros (vs & Hvs & ->). inversion Hvs; subst. by rewrite app_nil_r.
  - rewrite bind_Ok. split.
    + intros ([l1 r1] & Hbody & Hloop).
      apply IH in Hloop as (vs & Hvs & ->).
      unfold StringArray_body in Hbody. destruct r as [|c r0]; [done|].
      destruct (byte_val c =? 0) eqn:Hc.
      * apply Z.eqb_eq, byte_val_zero in Hc as ->. injection Hbody as <- <-.
        exists (VStr [] :: vs). split; [by constructor|by rewrite <- app_assoc].
      * apply Z.eqb_neq in Hc.
        apply bind_Ok in Hbody as ([s r2] & Hs & Hbody). injection Hbody as <- <-.
        exists (VStr s :: vs). split; [|by rewrite <- app_assoc].
        apply elements_string with r2; [|done..].
        intros ->. by apply Hc.
    + intros (vs & Hvs & ->). inversion Hvs as [|? ? vs' ? Hvs'|? c r0 s r1 vs' ? Hc Hs Hvs']; subst.
      * exists (l ++ [VStr []], r0). split; [done|].
        apply IH. exists vs'. split; [done|by rewrite <- app_assoc].
      * exists (l ++ [VStr s], r1). split.
        -- unfold StringArray_body.
           replace (byte_val c =? 0) with false; [by rewrite Hs|].
           symmetry. apply Z.eqb_neq. by rewrite byte_val_zero.
        -- apply IH. exists vs'. split; [done|by rewrite <- app_assoc].
Qed.

(** C7.  String-array element rule: a string array (marker 0x15) decodes
    exactly when its varint count [n] decodes and [n] elements follow, each
    either a zero byte, consumed and giving the empty string, or else a full
    length-prefixed string; the bytes [15 01 00] decode to the one-element
    array holding the empty string, nothing remaining. *)
Theorem string_array_element_rule :
  (∀ b v rest,
     Parser_parse (x15 :: b) = Ok (v, rest) ↔
     ∃ n r0 vs, Integer_parse b = Ok (n, r0) ∧
                string_elements (Z.to_nat n) r0 vs rest ∧
                v = VList vs) ∧
  Parser_parse [x15; x01; x00] = Ok (VList [VStr []], []).
Proof.
  split; [|reflexivity]. intros b v rest.
  rewrite (Parser_parse_marker_Ok x15 _ StringArray) by done.
  unfold class_parse, StringArray_parse. split.
  - intros H. apply bind_Ok in H as ([n r0] & Hn & H).
    apply bind_Ok in H as ([l r1] & Hloop & H). injection H as <- <-.
    apply StringArray_loop in Hloop as (vs & Hvs & ->).
    by exists n, r0, vs.
  - intros (n & r0 & vs & -> & Hvs & ->). simpl.
    assert (for_range (Z.to_nat n) StringArray_body ([], r0) = Ok (vs, rest)) as ->; [|done].
    apply StringArray_loop. by exists vs.
Qed.

Lemma string_array_element_rule_witness :
  Parser_parse [x15; x02; x00; x01; x61; xff] = Ok (VList [VStr []; VStr (lit "a")], [xff]).
Proof.
  apply (proj1 string_array_element_rule). exists 2, [x00; x01; x61; xff], [VStr []; VStr (lit "a")].
  split; [reflexivity|]. split; [|reflexivity].
  apply elements_zero. apply elements_string with [xff]; [discriminate|reflexivity|].
  apply elements_done.
Defined.

(** ** The dictionary *)

Lemma container_unhashable k : is_container k = true → hashable k = false.
Proof. by destruct k. Qed.

Section DictLoop.
Variable P : bytes → result (value * bytes).

Lemma Dict_body_Ok d r d' r' :
  Dict_body P (d, r) = Ok (d', r') ↔
  ∃ k v, dict_entry P r = Ok ((k, v), r') ∧ hashable k = true ∧ d' = dict_store d k v.
Proof.
  unfold Dict_body, dict_entry, dict_setitem. split.
  - intros H. apply bind_Ok in H as ([k r1] & Hk & H).
    apply bind_Ok in H as ([v r2] & Hv & H).
    destruct (hashable k) eqn:Hh; [|done]. injection H as <- <-.
    exists k, v. by rewrite Hk; simpl; rewrite Hv.
  - intros (k & v & H & Hh & ->).
    apply bind_Ok in H as ([k' r1] & Hk & H).
    apply bind_Ok in H as ([v' r2] & Hv & H). injection H as -> -> ->.
    rewrite Hk; simpl. rewrite Hv; simpl. by rewrite Hh.
Qed.

Lemma Dict_loop n : ∀ d r d' r',
  for_range n (Dict_body P) (d, r) = Ok (d', r') ↔
  ∃ kvs, decodes (dict_entry P) n r kvs r' ∧
         Forall (λ kv, hashable kv.1 = true) kvs ∧
         d' = dict_of d kvs.
Proof.
  induction n as [|n IH]; intros d r d' r'; simpl.
  - split.
    + intros [= <- <-]. exists []. by repeat constructor.
    + intros (kvs & Hkvs & _ & ->). by inversion Hkvs; subst.
  - rewrite bind_Ok. split.
    + intros ([d1 r1] & Hbody & Hloop).
      apply Dict_body_Ok in Hbody as (k & v & He & Hh & ->).
      apply IH in Hloop as (kvs & Hkvs & Hall & ->).
      exists ((k, v) :: kvs). repeat split; [by econstructor|by constructor].
    + intros (kvs & Hkvs & Hall & ->).
      inversion Hkvs as [|? ? [k v] r1 kvs' ? He Hkvs']; subst.
      apply Forall_cons in Hall as [Hh Hall].
      exists (dict_store d k v, r1). split.
      * apply Dict_body_Ok. by exists k, v.
      * apply IH. by exists kvs'.
Qed.

(** The loop meets a key that cannot be hashed after [j] whole entries. *)
Lemma Dict_loop_unhashable j rest kvs r k r1 :
  decodes (dict_entry P) j rest kvs r →
  P r = Ok (k, r1) → hashable k = false →
  ∀ n d, (j < n)%nat →
    (∀ x, for_range n (Dict_body P) (d, rest) ≠ Ok x) ∧
    (∀ v r2, P r1 = Ok (v, r2) →
             for_range n (Dict_body P) (d, rest) = Raise TypeError).
Proof.
  intros Hdec Hk Hh.
  induction Hdec as [r|j rest [k0 v0] r0 kvs r He Hdec IH];
    intros n d Hn; (destruct n as [|n]; [lia|]); simpl.
  - unfold Dict_body at 1 2. rewrite Hk; simpl. split.
    + intros x. destruct (P r1) as [[v r2]| |]; simpl; [|done..].
      unfold dict_setitem. by rewrite Hh.
    + intros v r2 ->. simpl. unfold dict_setitem. by rewrite Hh.
  - apply bind_Ok in He as ([k' r1'] & Hk' & He).
    apply bind_Ok in He as ([v' r2'] & Hv' & He). injection He as -> -> ->.
    unfold Dict_body at 1 2. rewrite Hk'; simpl. rewrite Hv'; simpl.
    unfold dict_setitem. destruct (hashable k0); simpl.
    + apply IH; [done..|lia].
    + done.
Qed.
End DictLoop.

(** C5.  Dictionary count: the entry count of a dictionary (marker 0x18) is
    the single byte after the marker, a number from 0 to 255, and the
    entries start at the byte after it; a count byte with the high bit set
    is not continued as a varint would be; a dictionary whose count byte is
    0 decodes to the empty mapping, that one byte consumed. *)
Theorem dict_count_single_byte :
  (∀ c rest v r,
     Parser_parse (x18 :: c :: rest) = Ok (v, r) ↔
     ∃ kvs, decodes (dict_entry Parser_parse) (Z.to_nat (byte_val c)) rest kvs r ∧
            Forall (λ kv, hashable kv.1 = true) kvs ∧
            v = VDict (dict_of [] kvs)) ∧
  (∀ c, 0 ≤ byte_val c ≤ 255) ∧
  (∀ rest, Parser_parse (x18 :: x00 :: rest) = Ok (VDict [], rest)) ∧
  Parser_parse [x18; x80; x00] = Raise (ViewStateException (Unknown_marker x00)).
Proof.
  repeat split; try reflexivity.
  - rewrite (Parser_parse_marker_Ok x18 _ Dict) by done.
    unfold class_parse, Dict_parse. intros H.
    apply bind_Ok in H as ([d r1] & Hloop & H). injection H as <- <-.
    apply Dict_loop in Hloop as (kvs & ? & ? & ->). by exists kvs.
  - rewrite (Parser_parse_marker_Ok x18 _ Dict) by done.
    unfold class_parse, Dict_parse. intros (kvs & Hkvs & Hall & ->).
    assert (for_range (Z.to_nat (byte_val c)) (Dict_body Parser_parse) ([], rest) =
            Ok (dict_of [] kvs, r)) as ->; [|done].
    apply Dict_loop. by exists kvs.
  - pose proof (byte_val_range c). lia.
  - pose proof (byte_val_range c). lia.
Qed.

Lemma dict_count_single_byte_witness :
  Parser_parse [x18; x02; x66; x65; x67; x64; xff] =
  Ok (VDict [(VInt 0, VStr []); (VBool true, VNone)], [xff]).
Proof.
  apply (proj1 dict_count_single_byte).
  exists [(VInt 0, VStr []); (VBool true, VNone)].
  split; [|split; [by repeat constructor|reflexivity]].
  apply decodes_next with [x67; x64; xff]; [reflexivity|].
  apply decodes_next with [xff]; [reflexivity|]. apply decodes_done.
Defined.

(** C6.  Dictionary key restriction: when a key of a dictionary decodes to
    a container (an ordered sequence or a mapping), the decode never
    succeeds, the key not being accepted; once the value of that entry has
    decoded, storing the entry raises [TypeError], the failure of hashing
    the key; and when the value of that entry fails to decode, the earlier
    keys having been hashable, the exception of the value's decode is the
    outcome. *)
Theorem dict_container_key_rejected c rest (j : nat) kvs r k r1 :
  (j < Z.to_nat (byte_val c))%nat →
  decodes (dict_entry Parser_parse) j rest kvs r →
  Parser_parse r = Ok (k, r1) →
  is_container k = true →
  (∀ x, Parser_parse (x18 :: c :: rest) ≠ Ok x) ∧
  (∀ v r2, Parser_parse r1 = Ok (v, r2) →
           Parser_parse (x18 :: c :: rest) = Raise TypeError) ∧
  (Forall (λ kv, hashable kv.1 = true) kvs →
   ∀ e, Parser_parse r1 = Raise e →
        Parser_parse (x18 :: c :: rest) = Raise e).
Proof.
  intros Hj Hdec Hk Hc. apply container_unhashable in Hc.
  destruct (Dict_loop_unhashable Parser_parse j rest kvs r k r1 Hdec Hk Hc
              (Z.to_nat (byte_val c)) [] Hj) as [Hno Hraise].
  split; [|split].
  - intros x. rewrite (Parser_parse_marker_Ok x18 _ Dict) by done.
    unfold class_parse, Dict_parse. intros H.
    apply bind_Ok in H as (st & Hloop & _). by apply Hno in Hloop.
  - intros v r2 Hv. rewrite (Parser_parse_marker x18 _ Dict) by done.
    unfold class_parse, Dict_parse. by rewrite (Hraise v r2 Hv).
  - intros Hall e He. rewrite (Parser_parse_marker x18 _ Dict) by done.
    apply (except_KeyError_from_parse _ _ r1 e He).
    unfold class_parse, Dict_parse.
    assert (for_range (Z.to_nat (byte_val c)) (Dict_body Parser_parse) ([], rest) =
            Raise e) as ->; [|done].
    apply (for_range_raises_after _ j _ _ (dict_of [] kvs, r)); [done| |].
    + apply Dict_loop. by exists kvs.
    + unfold Dict_body. rewrite Hk; simpl. by rewrite He.
Qed.

Lemma dict_container_key_rejected_witness :
  Parser_parse [x18; x02; x66; x65; x16; x00; x64] = Raise TypeError ∧
  Parser_parse [x18; x02; x66; x65; x16; x00] = Raise IndexError.
Proof.
  split.
  - refine (proj1 (proj2 (dict_container_key_rejected x02 [x66; x65; x16; x00; x64] 1
                     [(VInt 0, VStr [])] [x16; x00; x64] (VList []) [x64] _ _ _ _))
              VNone [] _).
    + vm_compute. lia.
    + apply decodes_next with [x16; x00; x64]; [reflexivity|]. apply decodes_done.
    + reflexivity.
    + reflexivity.
    + reflexivity.
  - refine (proj2 (proj2 (dict_container_key_rejected x02 [x66; x65; x16; x00] 1
                     [(VInt 0, VStr [])] [x16; x00] (VList []) [] _ _ _ _))
              _ IndexError _).
    + vm_compute. lia.
    + apply decodes_next with [x16; x00]; [reflexivity|]. apply decodes_done.
    + reflexivity.
    + reflexivity.
    + by repeat constructor.
    + reflexivity.
Defined.

(** C6 as stated fails: with a container key and the entry's value cut
    off, the decode ends in the [IndexError] of the value's decode, since
    [v, remain = Parser.parse(remain)] runs before [d[k] = v]. *)
Lemma dict_container_key_value_first :
  Parser_parse [x16; x00] = Ok (VList [], []) ∧
  is_container (VList []) = true ∧
  Parser_parse [x18; x01; x16; x00] = Raise IndexError ∧
  Parser_parse [x18; x01; x16; x00] ≠ Raise TypeError.
Proof. by repeat split. Qed.

(** ** The sparse array *)

Lemma sparse_of_length es : ∀ l, length (sparse_of l es) = length l.
Proof.
  induction es as [|e es IH]; intros l; simpl; [done|].
  by rewrite IH, length_insert.
Qed.

Lemma sparse_of_untouched es : ∀ l (i : nat),
  Forall (λ e, Z.to_nat e.1 ≠ i) es → sparse_of l es !! i = l !! i.
Proof.
  induction es as [|e es IH]; intros l i Hes; simpl; [done|].
  apply Forall_cons in Hes as [He Hes].
  by rewrite IH, list_lookup_insert_ne.
Qed.

Lemma sparse_entries_nonneg P n r es r' :
  decodes (sparse_entry P) n r es r' → Forall (λ e, 0 ≤ e.1) es.
Proof.
  induction 1 as [|? ? [idx val] ? ? ? He _ IH]; constructor; [|done].
  apply bind_Ok in He as ([idx' r0] & Hidx & He).
  apply bind_Ok in He as ([val' r0'] & _ & He). injection He as -> _ _.
  apply Integer_parse_range in Hidx. simpl. lia.
Qed.

Section SparseLoop.
Variable P : bytes → result (value * bytes).

Lemma SparseArray_body_Ok l r l' r' :
  SparseArray_body P (l, r) = Ok (l', r') ↔
  ∃ idx val, sparse_entry P r = Ok ((idx, val), r') ∧
             0 ≤ idx < Z.of_nat (length l) ∧ l' = <[Z.to_nat idx := val]> l.
Proof.
  unfold SparseArray_body, sparse_entry, list_setitem. split.
  - intros H. apply bind_Ok in H as ([idx r1] & Hidx & H).
    apply bind_Ok in H as ([val r2] & Hval & H).
    destruct (idx <? Z.of_nat (length l)) eqn:Hlt; [|done]. injection H as <- <-.
    apply Z.ltb_lt in Hlt. pose proof (Integer_parse_range _ _ _ Hidx).
    exists idx, val. rewrite Hidx; simpl. rewrite Hval. repeat split; [lia|done].
  - intros (idx & val & H & Hlt & ->).
    apply bind_Ok in H as ([idx' r1] & Hidx & H).
    apply bind_Ok in H as ([val' r2] & Hval & H). injection H as -> -> ->.
    rewrite Hidx; simpl. rewrite Hval; simpl.
    by replace (idx <? Z.of_nat (length l)) with true by (symmetry; apply Z.ltb_lt; lia).
Qed.

Lemma SparseArray_loop n : ∀ l r l' r',
  for_range n (SparseArray_body P) (l, r) = Ok (l', r') ↔
  ∃ es, decodes (sparse_entry P) n r es r' ∧
        Forall (λ e, 0 ≤ e.1 < Z.of_nat (length l)) es ∧
        l' = sparse_of l es.
Proof.
  induction n as [|n IH]; intros l r l' r'; simpl.
  - split.
    + intros [= <- <-]. exists []. by repeat constructor.
    + intros (es & Hes & _ & ->). by inversion Hes; subst.
  - rewrite bind_Ok. split.
    + intros ([l1 r1] & Hbody & Hloop).
      apply SparseArray_body_Ok in Hbody as (idx & val & He & Hlt & ->).
      apply IH in Hloop as (es & Hes & Hall & ->).
      rewrite length_insert in Hall.
      exists ((idx, val) :: es). repeat split; [by econstructor|by constructor].
    + intros (es & Hes & Hall & ->).
      inversion Hes as [|? ? [idx val] r1 es' ? He Hes']; subst.
      apply Forall_cons in Hall as [Hlt Hall].
      exists (<[Z.to_nat idx := val]> l, r1). split.
      * apply SparseArray_body_Ok. by exists idx, val.
      * apply IH. exists es'. by rewrite length_insert.
Qed.

(** After [j] whole entries the loop reads an index at or beyond the length
    of the list. *)
Lemma SparseArray_loop_out_of_range j r es r' idx ra :
  decodes (sparse_entry P) j r es r' →
  Integer_parse r' = Ok (idx, ra) →
  ∀ n l, (j < n)%nat → Z.of_nat (length l) ≤ idx →
    (∀ x, for_range n (SparseArray_body P) (l, r) ≠ Ok x) ∧
    (∀ val rb, P ra = Ok (val, rb) →
               for_range n (SparseArray_body P) (l, r) = Raise IndexError).
Proof.
  intros Hdec Hidx.
  induction Hdec as [r|j r [idx0 val0] r0 es r' He Hdec IH];
    intros n l Hn Hlen; (destruct n as [|n]; [lia|]); simpl.
  - unfold SparseArray_body at 1 2. rewrite Hidx; simpl.
    assert (list_setitem_raises : ∀ val, list_setitem l idx val = Raise IndexError).
    { intros val. unfold list_setitem.
      by replace (idx <? Z.of_nat (length l)) with false by (symmetry; apply Z.ltb_ge; lia). }
    split.
    + intros x. destruct (P ra) as [[val rb]| |]; simpl; [|done..].
      by rewrite list_setitem_raises.
    + intros val rb ->. simpl. by rewrite list_setitem_raises.
  - apply bind_Ok in He as ([idx' r1] & Hidx0 & He).
    apply bind_Ok in He as ([val' r2] & Hval0 & He). injection He as -> -> ->.
    unfold SparseArray_body at 1 2. rewrite Hidx0; simpl. rewrite Hval0; simpl.
    unfold list_setitem. destruct (idx0 <? Z.of_nat (length l)); simpl; [|done].
    apply IH; [done|lia|by rewrite length_insert].
Qed.

End SparseLoop.

(** C2, amended.  Sparse-array invariant: every sparse array (marker 0x3c)
    that is accepted decodes a type descriptor, a length, a count [n] and
    [n] entries; the sequence returned has the decoded length; every slot
    that none of the entries writes holds [None]; and every entry's index is
    below the length.  An input in which, after any number of whole entries,
    the next entry's index decodes to the length or more is never accepted:
    once the value of that entry has decoded, the list assignment raises
    [IndexError]; when the value fails to decode, the earlier indices having
    been below the length, the exception of the value's decode is the
    outcome. *)
Theorem sparse_array_invariant :
  (∀ b v rest,
     Parser_parse (x3c :: b) = Ok (v, rest) →
     ∃ t r1 len r2 n r3 es l,
       Type_parse b = Ok (t, r1) ∧
       Integer_parse r1 = Ok (len, r2) ∧
       Integer_parse r2 = Ok (n, r3) ∧
       decodes (sparse_entry Parser_parse) (Z.to_nat n) r3 es rest ∧
       v = VList l ∧
       Z.of_nat (length l) = len ∧
       (∀ i : nat, (i < length l)%nat →
                   (∀ val, (Z.of_nat i, val) ∉ es) → l !! i = Some VNone) ∧
       Forall (λ e, 0 ≤ e.1 < len) es) ∧
  (∀ b t r1 len r2 n r3 (j : nat) es r idx ra,
     Type_parse b = Ok (t, r1) →
     Integer_parse r1 = Ok (len, r2) →
     Integer_parse r2 = Ok (n, r3) →
     (j < Z.to_nat n)%nat →
     decodes (sparse_entry Parser_parse) j r3 es r →
     Integer_parse r = Ok (idx, ra) →
     len ≤ idx →
     (∀ x, Parser_parse (x3c :: b) ≠ Ok x) ∧
     (∀ val rb, Parser_parse ra = Ok (val, rb) →
                Parser_parse (x3c :: b) = Raise IndexError) ∧
     (Forall (λ e, e.1 < len) es →
      ∀ e, Parser_parse ra = Raise e → Parser_parse (x3c :: b) = Raise e)).
Proof.
  split.
  - intros b v rest.
    rewrite (Parser_parse_marker_Ok x3c _ SparseArray) by done.
    unfold class_parse, SparseArray_parse. intros H.
    apply bind_Ok in H as ([t r1] & Ht & H).
    apply bind_Ok in H as ([len r2] & Hlen & H).
    apply bind_Ok in H as ([n r3] & Hn & H).
    apply bind_Ok in H as ([l r4] & Hloop & H). injection H as <- <-.
    apply SparseArray_loop in Hloop as (es & Hes & Hall & ->).
    pose proof (Integer_parse_range _ _ _ Hlen) as Hrange.
    rewrite length_replicate, Z2Nat.id in Hall by lia.
    exists t, r1, len, r2, n, r3, es, (sparse_of (replicate (Z.to_nat len) VNone) es).
    repeat split; try done.
    + rewrite sparse_of_length, length_replicate. lia.
    + rewrite sparse_of_length, length_replicate. intros i Hi Hfree.
      rewrite sparse_of_untouched; [by apply lookup_replicate_2|].
      apply Forall_forall. intros [idx val] Hin Heq. simpl in Heq.
      eapply Forall_forall in Hall; [|done]. simpl in Hall.
      apply (Hfree val). replace (Z.of_nat i) with idx by lia. done.
  - intros b t r1 len r2 n r3 j es r idx ra Ht Hlen Hn Hj Hes Hidx Hge.
    pose proof (Integer_parse_range _ _ _ Hlen) as Hrange.
    assert (Hl : Z.of_nat (length (replicate (Z.to_nat len) VNone)) = len)
      by (rewrite length_replicate; lia).
    destruct (SparseArray_loop_out_of_range Parser_parse j r3 es r idx ra Hes Hidx
                (Z.to_nat n) (replicate (Z.to_nat len) VNone) Hj) as [Hno Hraise];
      [lia|].
    split; [|split].
    + intros x. rewrite (Parser_parse_marker_Ok x3c _ SparseArray) by done.
      unfold class_parse, SparseArray_parse.
      rewrite Ht; simpl. rewrite Hlen; simpl. rewrite Hn; simpl. intros H.
      apply bind_Ok in H as (st & Hloop & _). by apply Hno in Hloop.
    + intros val rb Hval. rewrite (Parser_parse_marker x3c _ SparseArray) by done.
      unfold class_parse, SparseArray_parse.
      rewrite Ht; simpl. rewrite Hlen; simpl. rewrite Hn; simpl.
      by rewrite (Hraise val rb Hval).
    + intros Hall e He. rewrite (Parser_parse_marker x3c _ SparseArray) by done.
      apply (except_KeyError_from_parse _ _ ra e He).
      unfold class_parse, SparseArray_parse.
      rewrite Ht; simpl. rewrite Hlen; simpl. rewrite Hn; simpl.
      assert (for_range (Z.to_nat n) (SparseArray_body Parser_parse)
                (replicate (Z.to_nat len) VNone, r3) = Raise e) as ->; [|done].
      apply (for_range_raises_after _ j _ _
               (sparse_of (replicate (Z.to_nat len) VNone) es, r)); [done| |].
      * apply SparseArray_loop. exists es. repeat split; [done|].
        pose proof (sparse_entries_nonneg _ _ _ _ _ Hes) as Hnonneg.
        apply Forall_forall. intros x Hx.
        eapply Forall_forall in Hall; [|done]. eapply Forall_forall in Hnonneg; [|done].
        lia.
      * unfold SparseArray_body. rewrite Hidx; simpl. by rewrite He.
Qed.

Lemma sparse_array_invariant_witness :
  (∃ t r1 len r2 n r3 es l,
     Type_parse [x2b; x00; x03; x01; x01; x67] = Ok (t, r1) ∧
     Integer_parse r1 = Ok (len, r2) ∧
     Integer_parse r2 = Ok (n, r3) ∧
     decodes (sparse_entry Parser_parse) (Z.to_nat n) r3 es [] ∧
     VList [VNone; VBool true; VNone] = VList l ∧
     Z.of_nat (length l) = len ∧
     (∀ i : nat, (i < length l)%nat →
                 (∀ val, (Z.of_nat i, val) ∉ es) → l !! i = Some VNone) ∧
     Forall (λ e, 0 ≤ e.1 < len) es) ∧
  Parser_parse [x3c; x2b; x00; x03; x02; x03; x67] = Raise IndexError ∧
  Parser_parse [x3c; x2b; x00; x03; x02; x01; x67; x03; x00] =
  Raise (ViewStateException (Unknown_marker x00)).
Proof.
  split; [|split].
  - apply (proj1 sparse_array_invariant [x2b; x00; x03; x01; x01; x67]). reflexivity.
  - refine (proj1 (proj2 (proj2 sparse_array_invariant [x2b; x00; x03; x02; x03; x67]
                     (VInt 0) [x03; x02; x03; x67] 3 [x02; x03; x67] 2 [x03; x67]
                     0%nat [] [x03; x67] 3 [x67] _ _ _ _ _ _ _))
              (VBool true) [] _);
      first [reflexivity | apply decodes_done | vm_compute; lia].
  - refine (proj2 (proj2 (proj2 sparse_array_invariant
                     [x2b; x00; x03; x02; x01; x67; x03; x00]
                     (VInt 0) [x03; x02; x01; x67; x03; x00] 3 [x02; x01; x67; x03; x00]
                     2 [x01; x67; x03; x00]
                     1%nat [(1, VBool true)] [x03; x00] 3 [x00] _ _ _ _ _ _ _))
              _ (ViewStateException (Unknown_marker x00)) _);
      first [ reflexivity
            | apply decodes_next with [x03; x00]; [reflexivity|apply decodes_done]
            | repeat constructor; simpl; lia
            | vm_compute; lia ].
Defined.

(** C2 as stated fails: with an index at the length and a value that does
    not decode, the decode ends in the exception of the value's decode, since
    [val, remain = Parser.parse(remain)] runs before [l[idx] = val]. *)
Lemma sparse_index_value_first :
  Type_parse [x2b; x00; x03; x01; x03; x00] = Ok (VInt 0, [x03; x01; x03; x00]) ∧
  Integer_parse [x03; x01; x03; x00] = Ok (3, [x01; x03; x00]) ∧
  Integer_parse [x01; x03; x00] = Ok (1, [x03; x00]) ∧
  Integer_parse [x03; x00] = Ok (3, [x00]) ∧
  Parser_parse [x3c; x2b; x00; x03; x01; x03; x00] =
  Raise (ViewStateException (Unknown_marker x00)) ∧
  Parser_parse [x3c; x2b; x00; x03; x01; x03; x00] ≠ Raise IndexError.
Proof. by repeat split. Qed.

(** * Further properties of the decoder *)

(** ** The registry the metaclass builds *)

(** X10.  The registry built by [ParserMeta.__init__] over the class
    statements of the module is the dispatch table: looking a marker byte up
    in it finds the class [registry] names, and fails for every other byte.
    No marker is assigned twice, so no class statement overwrites the entry
    of an earlier one, and the table has 22 entries. *)
Theorem metaclass_builds_registry :
  (∃ reg, module_registry = Some reg ∧
     size reg = 22%nat ∧
     ∀ marker : byte,
       registry marker =
       match reg !! byte_val marker with
       | Some (Registered cls) => Ok cls
       | _ => Raise KeyError
       end) ∧
  NoDup assigned_markers.
Proof.
  split.
  - eexists. split; [reflexivity|]. split; [by vm_compute|].
    intros marker. by destruct marker; vm_compute.
  - apply (bool_decide_unpack (NoDup assigned_markers)). by vm_compute.
Qed.

(** ** Exceptions of the dispatch *)

Lemma bind_no_KeyError {A B} (m : result A) (f : A → result B) :
  m ≠ Raise KeyError → (∀ x, m = Ok x → f x ≠ Raise KeyError) →
  m ≫= f ≠ Raise KeyError.
Proof.
  intros H1 H2. destruct m; simpl; [by apply H2| |done].
  intros [= ->]. by apply H1.
Qed.

Lemma for_range_no_KeyError {S} (body : S → result S) n : ∀ s,
  (∀ s1, body s1 ≠ Raise KeyError) → for_range n body s ≠ Raise KeyError.
Proof.
  induction n as [|n IH]; intros s Hbody; simpl; [done|].
  apply bind_no_KeyError; auto.
Qed.

Lemma Integer_while_no_KeyError b : ∀ n bits, Integer_while n bits b ≠ Raise KeyError.
Proof.
  induction b as [|c b IH]; intros n bits; destruct (decide (bits < 32)).
  - by rewrite Integer_while_nil.
  - by rewrite Integer_while_exit by lia.
  - rewrite Integer_while_cons by done. by destruct (continues c).
  - by rewrite Integer_while_exit by lia.
Qed.

Lemma Integer_parse_no_KeyError b : Integer_parse b ≠ Raise KeyError.
Proof. apply Integer_while_no_KeyError. Qed.

Lemma bytes_decode_no_KeyError s : bytes_decode s ≠ Raise KeyError.
Proof. unfold bytes_decode. by destruct (utf8_decode s). Qed.

Create HintDb nokey discriminated.
#[local] Hint Resolve Integer_parse_no_KeyError bytes_decode_no_KeyError : nokey.

(** Walks a chain of binds none of whose steps raises [KeyError]. *)
Ltac no_KeyError :=
  repeat match goal with
         | |- Ok _ ≠ Raise KeyError => discriminate
         | |- Raise _ ≠ Raise KeyError => discriminate
         | |- (_ ≫= _) ≠ Raise KeyError =>
           apply bind_no_KeyError; [|first [intros [? ?] ?|intros ? ?]]
         | |- for_range _ _ _ ≠ Raise KeyError =>
           apply for_range_no_KeyError; intros [? ?]
         | |- (if ?c then _ else _) ≠ Raise KeyError => destruct c
         | |- (match ?x with [] => _ | _ :: _ => _ end) ≠ Raise KeyError => destruct x
         end;
  auto with nokey.

Lemma String_parse_no_KeyError b : String_parse b ≠ Raise KeyError.
Proof. unfold String_parse. no_KeyError. Qed.

#[local] Hint Resolve String_parse_no_KeyError : nokey.

Lemma Type_parse_no_KeyError b : Type_parse b ≠ Raise KeyError.
Proof. unfold Type_parse. no_KeyError. Qed.

#[local] Hint Resolve Type_parse_no_KeyError : nokey.

Lemma class_parse_no_KeyError P cls b :
  (∀ c, P c ≠ Raise KeyError) → class_parse P cls b ≠ Raise KeyError.
Proof.
  intros HP. destruct cls; simpl; try done.
  - no_KeyError.
  - no_KeyError.
  - unfold Enum_parse. no_KeyError.
  - unfold Pair_parse. no_KeyError.
  - unfold Triplet_parse. no_KeyError.
  - unfold RGBA_parse. by repeat case_match.
  - unfold StringArray_parse, StringArray_body. no_KeyError.
  - unfold Array_parse, Array_body. no_KeyError.
  - unfold StringRef_parse. no_KeyError.
  - unfold FormattedString_parse. no_KeyError.
  - unfold SparseArray_parse, SparseArray_body, list_setitem. no_KeyError.
  - unfold Dict_parse, Dict_body, dict_setitem. no_KeyError.
  - unfold TypedArray_parse, Array_body. no_KeyError.
Qed.

(** The handler of [Parser.parse] only ever sees the [KeyError] of its own
    lookup: for a registered marker the outcome is that of the class. *)
Lemma Parser_parse_registered marker remain cls :
  registry marker = Ok cls →
  Parser_parse (marker :: remain) = class_parse Parser_parse cls remain.
Proof.
  intros H. rewrite (Parser_parse_marker _ _ _ H).
  pose proof (class_parse_no_KeyError Parser_parse cls remain Parser_parse_no_KeyError).
  by destruct (class_parse Parser_parse cls remain) as [?|[]|].
Qed.

(** X1.  [Parser.parse] never lets a [KeyError] out.  When the marker is in
    the registry the outcome is exactly that of the class's decoder, the
    [except KeyError] clause never firing on an exception of a nested
    decode; when it is not, the outcome is the [ViewStateException] naming
    this marker, whatever bytes follow. *)
Theorem dispatch_KeyError_confined :
  (∀ b, Parser_parse b ≠ Raise KeyError) ∧
  (∀ marker remain cls,
     registry marker = Ok cls →
     Parser_parse (marker :: remain) = class_parse Parser_parse cls remain) ∧
  (∀ marker remain,
     registry marker = Raise KeyError →
     Parser_parse (marker :: remain) = Raise (ViewStateException (Unknown_marker marker))).
Proof.
  split; [apply Parser_parse_no_KeyError|]. split; [apply Parser_parse_registered|].
  intros marker remain H. rewrite Parser_parse_unfold. simpl. by rewrite H.
Qed.

Lemma dispatch_KeyError_confined_witness :
  Parser_parse [x16; x01; x01] = Array_parse Parser_parse [x01; x01] ∧
  Parser_parse [x16; x01; x01] = Raise (ViewStateException (Unknown_marker x01)) ∧
  Parser_parse [x01; x16] = Raise (ViewStateException (Unknown_marker x01)).
Proof.
  split; [|split].
  - apply (proj1 (proj2 dispatch_KeyError_confined) x16 [x01; x01] Array). reflexivity.
  - reflexivity.
  - apply (proj2 (proj2 dispatch_KeyError_confined) x01 [x16]). reflexivity.
Defined.

(** ** Termination *)

(** X2.  [Parser.parse] comes to an outcome on every input, and its calls
    never nest deeper than the input is long: unfolding the recursion
    [len(b) + 1] times or any number of times more gives the same outcome,
    which is a value or an exception. *)
Theorem parse_depth_bounded_by_length b :
  Parser_parse b ≠ OutOfFuel ∧
  ∀ depth, (length b < depth)%nat → Parser_depth depth b = Parser_parse b.
Proof.
  split; [apply Parser_parse_total|].
  intros depth H. apply Parser_depth_stable; [done|lia].
Qed.

Lemma parse_depth_bounded_by_length_witness :
  Parser_depth 9 [x0f; x0f; x66; x67; x64] =
  Ok (VTuple2 (VTuple2 (VInt 0) (VBool true)) VNone, []).
Proof.
  rewrite (proj2 (parse_depth_bounded_by_length [x0f; x0f; x66; x67; x64]) 9%nat).
  - reflexivity.
  - simpl. lia.
Defined.

(** ** Counted containers *)

Lemma decodes_length {A} (D : bytes → result (A * bytes)) n r xs r' :
  decodes D n r xs r' → length xs = n.
Proof. induction 1; simpl; auto. Qed.

(** An item decoder that consumes at least one byte each time cannot
    succeed more often than there are bytes. *)
Lemma decodes_consumed {A} (D : bytes → result (A * bytes)) n r xs r' :
  (∀ b x b', D b = Ok (x, b') → (length b' < length b)%nat) →
  decodes D n r xs r' → (n + length r' ≤ length r)%nat.
Proof.
  intros HD. induction 1 as [r|n r x r1 xs r' Hx _ IH]; simpl; [lia|].
  apply HD in Hx. lia.
Qed.

Lemma decodes_functional {A} (D : bytes → result (A * bytes)) n r xs r' ys r'' :
  decodes D n r xs r' → decodes D n r ys r'' → xs = ys ∧ r' = r''.
Proof.
  intros H. revert ys r''. induction H as [r|n r x r1 xs r' Hx _ IH]; intros ys r'' H'.
  - by inversion H'.
  - inversion H' as [|? ? y r2 ys' ? Hy Hys]; subst.
    rewrite Hx in Hy. injection Hy as <- <-.
    by destruct (IH _ _ Hys) as [-> ->].
Qed.

(** A loop that appends one decoded item per iteration. *)
Lemma append_loop {A} (D : bytes → result (A * bytes)) (item : A → value)
    (body : list value * bytes → result (list value * bytes)) :
  (∀ l r, body (l, r) = '(x, r1) ← D r; Ok (l ++ [item x], r1)) →
  ∀ n l r l' r',
    for_range n body (l, r) = Ok (l', r') ↔
    ∃ xs, decodes D n r xs r' ∧ l' = l ++ (item <$> xs).
Proof.
  intros Hbody. induction n as [|n IH]; intros l r l' r'; simpl.
  - split.
    + intros [= <- <-]. exists []. split; [constructor|by rewrite app_nil_r].
    + intros (xs & Hxs & ->). inversion Hxs; subst. by rewrite app_nil_r.
  - rewrite bind_Ok. split.
    + intros ([l1 r1] & Hb & Hloop). rewrite Hbody in Hb.
      apply bind_Ok in Hb as ([x r2] & Hx & Hb). injection Hb as <- <-.
      apply IH in Hloop as (xs & Hxs & ->).
      exists (x :: xs). split; [by econstructor|by rewrite <- app_assoc].
    + intros (xs & Hxs & ->). inversion Hxs as [|? ? x r1 xs' ? Hx Hxs']; subst.
      exists (l ++ [item x], r1). split; [by rewrite Hbody, Hx|].
      apply IH. exists xs'. split; [done|by rewrite <- app_assoc].
Qed.

Lemma Parser_parse_progress b v r :
  Parser_parse b = Ok (v, r) → (length r < length b)%nat.
Proof.
  rewrite Parser_parse_unfold. intros H.
  by apply Parser_body_consumes in H as [_ ?]; [|apply Parser_parse_consumes].
Qed.

Lemma Array_parse_Ok b v r :
  Array_parse Parser_parse b = Ok (v, r) ↔
  ∃ n r0 vs, Integer_parse b = Ok (n, r0) ∧
             decodes Parser_parse (Z.to_nat n) r0 vs r ∧ v = VList vs.
Proof.
  unfold Array_parse. split.
  - intros H. apply bind_Ok in H as ([n r0] & Hn & H).
    apply bind_Ok in H as ([l r1] & Hloop & H). injection H as <- <-.
    apply (append_loop Parser_parse id) in Hloop as (vs & Hvs & ->); [|done].
    exists n, r0, vs. by rewrite list_fmap_id.
  - intros (n & r0 & vs & -> & Hvs & ->). simpl.
    assert (for_range (Z.to_nat n) (Array_body Parser_parse) ([], r0) = Ok (vs, r)) as ->;
      [|done].
    apply (append_loop Parser_parse id); [done|]. exists vs. by rewrite list_fmap_id.
Qed.

(** X3.  Counted containers hold exactly the count: an array (marker 0x16)
    decodes exactly when its varint count [n] decodes and [n] values decode
    one after another by the dispatch; the sequence returned then has [n]
    elements in the order decoded, and [n] is at most the number of bytes
    the elements occupy, so a count larger than the bytes that follow never
    succeeds.  A typed array (marker 0x14) is the same after its type
    descriptor. *)
Theorem counted_containers_hold_count :
  (∀ b v r,
     Parser_parse (x16 :: b) = Ok (v, r) ↔
     ∃ n r0 vs, Integer_parse b = Ok (n, r0) ∧
                decodes Parser_parse (Z.to_nat n) r0 vs r ∧ v = VList vs) ∧
  (∀ b v r,
     Parser_parse (x14 :: b) = Ok (v, r) ↔
     ∃ t r1 n r0 vs, Type_parse b = Ok (t, r1) ∧ Integer_parse r1 = Ok (n, r0) ∧
                     decodes Parser_parse (Z.to_nat n) r0 vs r ∧ v = VList vs) ∧
  (∀ n r0 vs r,
     0 ≤ n → decodes Parser_parse (Z.to_nat n) r0 vs r →
     Z.of_nat (length vs) = n ∧ n + Z.of_nat (length r) ≤ Z.of_nat (length r0)).
Proof.
  repeat split.
  - rewrite (Parser_parse_registered x16 _ Array) by done. apply Array_parse_Ok.
  - rewrite (Parser_parse_registered x16 _ Array) by done. apply Array_parse_Ok.
  - rewrite (Parser_parse_registered x14 _ TypedArray) by done.
    unfold class_parse, TypedArray_parse. intros H.
    apply bind_Ok in H as ([t r1] & Ht & H).
    change (Array_parse Parser_parse r1 = Ok (v, r)) in H.
    apply Array_parse_Ok in H as (n & r0 & vs & ? & ? & ?). by exists t, r1, n, r0, vs.
  - rewrite (Parser_parse_registered x14 _ TypedArray) by done.
    intros (t & r1 & n & r0 & vs & Ht & Hn & Hvs & ->).
    unfold class_parse. rewrite (TypedArray_parse_descriptor _ _ _ _ Ht).
    apply Array_parse_Ok. by exists n, r0, vs.
  - apply decodes_length in H0. lia.
  - apply decodes_consumed in H0; [lia|]. apply Parser_parse_progress.
Qed.

Lemma counted_containers_hold_count_witness :
  Parser_parse [x16; x02; x66; x67; xff] = Ok (VList [VInt 0; VBool true], [xff]) ∧
  Z.of_nat (length [VInt 0; VBool true]) = 2 ∧
  2 + Z.of_nat (length [xff]) ≤ Z.of_nat (length [x66; x67; xff]).
Proof.
  assert (H : decodes Parser_parse (Z.to_nat 2) [x66; x67; xff] [VInt 0; VBool true] [xff]).
  { apply decodes_next with [x67; xff]; [reflexivity|].
    apply decodes_next with [xff]; [reflexivity|]. apply decodes_done. }
  split.
  - apply (proj1 counted_containers_hold_count). by exists 2, [x66; x67; xff], [VInt 0; VBool true].
  - apply (proj2 (proj2 counted_containers_hold_count) 2 [x66; x67; xff] _ [xff]); [lia|exact H].
Defined.

(** ** The zero byte of a string array *)

Lemma String_parse_progress b s r :
  String_parse b = Ok (s, r) → (length r < length b)%nat.
Proof.
  unfold String_parse. destruct b as [|c b]; [done|]. intros H.
  apply bind_Ok in H as ([n r0] & Hn & H). apply bind_Ok in H as (t & _ & H).
  injection H as _ <-. apply Integer_parse_suffix in Hn as [_ Hn].
  rewrite length_drop. lia.
Qed.

Lemma String_parse_zero r : String_parse (x00 :: r) = Ok ([], r).
Proof. reflexivity. Qed.

Lemma StringArray_body_String_parse l r :
  StringArray_body (l, r) = '(s, r1) ← String_parse r; Ok (l ++ [VStr s], r1).
Proof.
  unfold StringArray_body. destruct r as [|c r]; [done|].
  destruct (byte_val c =? 0) eqn:Hc; [|done].
  apply Z.eqb_eq, byte_val_zero in Hc as ->. by rewrite String_parse_zero.
Qed.

(** X12.  The zero-byte shortcut of the string array changes nothing: a
    zero byte is what [String.parse] itself decodes to the empty string, so
    a string array (marker 0x15) decodes exactly as its varint count [n]
    followed by [n] length-prefixed strings, fails exactly when one of them
    fails, and returns [n] strings. *)
Theorem string_array_is_counted_strings :
  (∀ l r,
     StringArray_body (l, r) = '(s, r1) ← String_parse r; Ok (l ++ [VStr s], r1)) ∧
  (∀ b v r,
     Parser_parse (x15 :: b) = Ok (v, r) ↔
     ∃ n r0 ss, Integer_parse b = Ok (n, r0) ∧
                decodes String_parse (Z.to_nat n) r0 ss r ∧
                v = VList (VStr <$> ss) ∧
                Z.of_nat (length ss) = n ∧
                n + Z.of_nat (length r) ≤ Z.of_nat (length r0)).
Proof.
  split; [apply StringArray_body_String_parse|]. intros b v r.
  rewrite (Parser_parse_registered x15 _ StringArray) by done.
  unfold class_parse, StringArray_parse. split.
  - intros H. apply bind_Ok in H as ([n r0] & Hn & H).
    apply bind_Ok in H as ([l r1] & Hloop & H). injection H as <- <-.
    apply (append_loop String_parse VStr) in Hloop as (ss & Hss & ->);
      [|apply StringArray_body_String_parse].
    pose proof (Integer_parse_range _ _ _ Hn).
    pose proof (decodes_length _ _ _ _ _ Hss).
    pose proof (decodes_consumed _ _ _ _ _ String_parse_progress Hss).
    exists n, r0, ss. repeat split; [done..|lia|lia].
  - intros (n & r0 & ss & -> & Hss & -> & _). simpl.
    assert (for_range (Z.to_nat n) StringArray_body ([], r0) = Ok (VStr <$> ss, r)) as ->;
      [|done].
    apply (append_loop String_parse VStr); [apply StringArray_body_String_parse|].
    by exists ss.
Qed.

Lemma string_array_is_counted_strings_witness :
  ∃ n r0 ss, Integer_parse [x02; x00; x01; x61; xff] = Ok (n, r0) ∧
             decodes String_parse (Z.to_nat n) r0 ss [xff] ∧
             VList [VStr []; VStr (lit "a")] = VList (VStr <$> ss) ∧
             Z.of_nat (length ss) = n ∧
             n + Z.of_nat (length [xff]) ≤ Z.of_nat (length r0).
Proof.
  apply (proj1 (proj2 string_array_is_counted_strings [x02; x00; x01; x61; xff] _ [xff])).
  reflexivity.
Defined.

(** ** What the varint decoder reads *)

(** X4.  [Integer.parse] reads nothing beyond the bytes it consumes: bytes
    appended to an input it decodes leave the value unchanged and are
    returned after the old remainder.  [String.parse] has no such property,
    its slice taking whatever bytes are there: [03 61] decodes to ["a"] and
    [03 61 62] to ["ab"]. *)
Theorem varint_reads_only_what_it_consumes :
  (∀ b v r more,
     Integer_parse b = Ok (v, r) → Integer_parse (b ++ more) = Ok (v, r ++ more)) ∧
  ¬ (∀ b s r more,
       String_parse b = Ok (s, r) → String_parse (b ++ more) = Ok (s, r ++ more)).
Proof.
  split.
  - intros b v r more H.
    apply Integer_parse_inv in H as (p & c & -> & Hp & Hlen & Hend & ->).
    rewrite <- app_assoc. simpl. by apply Integer_parse_run.
  - intros H. specialize (H [x03; x61] (lit "a") [] [x62] eq_refl). discriminate H.
Qed.

Lemma varint_reads_only_what_it_consumes_witness :
  Integer_parse ([x8c; x02; x64] ++ [xff]) = Ok (268, [x64] ++ [xff]).
Proof.
  apply (proj1 varint_reads_only_what_it_consumes [x8c; x02; x64] 268 [x64] [xff]).
  reflexivity.
Defined.

Lemma Integer_while_Raise b : ∀ n (k : nat) e,
  (k ≤ 4)%nat →
  Integer_while n (7 * Z.of_nat k) b = Raise e →
  e = IndexError ∧ (k + length b ≤ 4)%nat ∧ Forall (λ x, continues x = true) b.
Proof.
  induction b as [|a b IH]; intros n k e Hk H.
  - rewrite Integer_while_nil in H by lia. injection H as <-.
    repeat split; [simpl; lia|constructor].
  - rewrite Integer_while_cons in H by lia.
    destruct (continues a) eqn:Ha; [|done].
    destruct (decide (k = 4%nat)) as [->|Hne].
    + by rewrite Integer_while_exit in H by lia.
    + replace (7 * Z.of_nat k + 7) with (7 * Z.of_nat (S k)) in H by lia.
      apply IH in H as (-> & Hlen & Hall); [|lia].
      repeat split; [simpl; lia|by constructor].
Qed.

(** X5.  The only exception of [Integer.parse] is [IndexError], and it is
    raised exactly on the inputs of at most four bytes that all have the
    high bit set (the empty input among them): the bytes run out before a
    terminating byte or a fifth byte is read.  Every other input is
    decoded. *)
Theorem varint_fails_only_when_starved b :
  (∀ e, Integer_parse b = Raise e → e = IndexError) ∧
  (Integer_parse b = Raise IndexError ↔
   (length b ≤ 4)%nat ∧ Forall (λ x, continues x = true) b) ∧
  (Integer_parse b ≠ Raise IndexError → ∃ v r, Integer_parse b = Ok (v, r)).
Proof.
  assert (Hraise : ∀ e, Integer_parse b = Raise e →
            e = IndexError ∧ (length b ≤ 4)%nat ∧ Forall (λ x, continues x = true) b).
  { intros e H. by apply (Integer_while_Raise b 0 0%nat e) in H; [|lia]. }
  split; [|split].
  - intros e H. by apply Hraise in H as [-> _].
  - split.
    + intros H. by apply Hraise in H as (_ & ? & ?).
    + intros [Hlen Hall].
      change (Integer_parse b) with (Integer_while 0 (7 * Z.of_nat 0) b).
      by apply Integer_while_starved.
  - intros Hne. pose proof (Integer_parse_fuel b) as Hfuel.
    destruct (Integer_parse b) as [[v r]|e|] eqn:E; [by exists v, r| |done].
    by destruct (Hraise e eq_refl) as (-> & _).
Qed.

Lemma varint_fails_only_when_starved_witness :
  Integer_parse [x80; xff; x81] = Raise IndexError ∧
  ∃ v r, Integer_parse [x80; xff; x81; x80; x80] = Ok (v, r).
Proof.
  split.
  - apply (proj2 (proj1 (proj2 (varint_fails_only_when_starved [x80; xff; x81])))).
    split; [simpl; lia|by repeat constructor].
  - apply (proj2 (proj2 (varint_fails_only_when_starved [x80; xff; x81; x80; x80]))).
    vm_compute. discriminate.
Defined.

(** ** Unknown flags *)

(** X6.  A type descriptor whose flag byte is none of 0x29, 0x2a and 0x2b
    raises the [ViewStateException] that reports the number of bytes left
    and the first twenty of them, and so does a typed array or a sparse
    array that starts with such a byte.  A formatted string accepts only
    0x29 and 0x2b as its sub-marker: any other byte, 0x2a included, raises
    the [ViewStateException] that reports the first twenty bytes. *)
Theorem unknown_flags_raise_ViewStateException c rest :
  (byte_val c ≠ 0x29 → byte_val c ≠ 0x2a → byte_val c ≠ 0x2b →
   let e := ViewStateException
              (Unknown_type_flag (S (length rest)) (take 20 (c :: rest))) in
   Type_parse (c :: rest) = Raise e ∧
   Parser_parse (x14 :: c :: rest) = Raise e ∧
   Parser_parse (x3c :: c :: rest) = Raise e) ∧
  (byte_val c ≠ 0x29 → byte_val c ≠ 0x2b →
   Parser_parse (x28 :: c :: rest) =
   Raise (ViewStateException
            (Unknown_formatted_string_type_marker (take 20 (c :: rest))))).
Proof.
  split.
  - intros H1 H2 H3 e.
    assert (Ht : Type_parse (c :: rest) = Raise e).
    { unfold Type_parse. apply Z.eqb_neq in H1, H2, H3. by rewrite H1, H2, H3. }
    split; [done|]. split.
    + rewrite (Parser_parse_registered x14 _ TypedArray) by done.
      unfold class_parse, TypedArray_parse. by rewrite Ht.
    + rewrite (Parser_parse_registered x3c _ SparseArray) by done.
      unfold class_parse, SparseArray_parse. by rewrite Ht.
  - intros H1 H3. rewrite (Parser_parse_registered x28 _ FormattedString) by done.
    unfold class_parse, FormattedString_parse.
    apply Z.eqb_neq in H1, H3. by rewrite H1, H3.
Qed.

Lemma unknown_flags_raise_ViewStateException_witness :
  Parser_parse [x14; x00; x01] =
  Raise (ViewStateException (Unknown_type_flag 2 [x00; x01])) ∧
  Parser_parse [x28; x2a; x00; x00] =
  Raise (ViewStateException (Unknown_formatted_string_type_marker [x2a; x00; x00])).
Proof.
  split.
  - apply (proj1 (unknown_flags_raise_ViewStateException x00 [x01])); vm_compute; discriminate.
  - apply (proj2 (unknown_flags_raise_ViewStateException x2a [x00; x00])); vm_compute; discriminate.
Defined.

(** ** The shape of a decoded value *)

Lemma class_parse_shape cls remain v r :
  class_parse Parser_parse cls remain = Ok (v, r) → shape cls v.
Proof.
  destruct cls; simpl; intros H;
    try (by injection H as <- _);
    try (by binds_inv; eauto);
    try (by unfold Color_parse, Datetime_parse, Unit_parse in H; injection H as <- _; eauto).
  - apply bind_Ok in H as ([n r0] & Hn & H). injection H as <- _.
    exists n. split; [done|]. by apply Integer_parse_range in Hn.
  - unfold Enum_parse in H. destruct remain; [done|]. binds_inv. eauto.
  - unfold Pair_parse in H. binds_inv. eauto.
  - unfold Triplet_parse in H. binds_inv. eauto.
  - unfold RGBA_parse in H. repeat case_match; try done. injection H as <- _. eauto.
  - unfold StringArray_parse in H.
    apply bind_Ok in H as ([n r0] & Hn & H).
    apply bind_Ok in H as ([l r1] & Hloop & H). injection H as <- _.
    apply (append_loop String_parse VStr) in Hloop as (ss & _ & ->);
      [|apply StringArray_body_String_parse].
    by exists ss.
  - unfold Array_parse in H. binds_inv. eauto.
  - unfold StringRef_parse in H. binds_inv. eauto.
  - unfold FormattedString_parse in H. destruct remain; [done|].
    repeat case_match; binds_inv; eauto.
  - unfold SparseArray_parse in H. binds_inv. eauto.
  - unfold Dict_parse in H. destruct remain; [done|]. binds_inv. eauto.
  - unfold TypedArray_parse in H. binds_inv. eauto.
Qed.


(** X7.  The marker alone decides the kind of value a successful decode
    returns: a constant for the five constant markers, an integer from 0
    below [2^35] for 0x02, a string for the string, enum, colour, unit,
    RGBA, string-reference and formatted-string markers, the fixed date for
    0x06, a 2-tuple or 3-tuple for 0x0f and 0x10, a list for the array
    markers (of strings for 0x15) and a dict for 0x18. *)
Theorem shape_follows_marker marker remain cls v r :
  registry marker = Ok cls →
  Parser_parse (marker :: remain) = Ok (v, r) →
  shape cls v.
Proof.
  intros Hreg. rewrite (Parser_parse_registered _ _ _ Hreg). apply class_parse_shape.
Qed.

Lemma shape_follows_marker_witness : shape Pair (VTuple2 (VInt 0) VNone).
Proof.
  apply (shape_follows_marker x0f [x66; x64; xff] Pair (VTuple2 (VInt 0) VNone) [xff]);
    reflexivity.
Defined.

(** ** The dict a dictionary decodes to *)

Lemma dict_store_keys_all (f : value → bool) d k v :
  forallb (λ kv, f kv.1) d = true → f k = true →
  forallb (λ kv, f kv.1) (dict_store d k v) = true.
Proof.
  intros Hd Hk. induction d as [|[k' v'] d IH]; simpl in *; [by rewrite Hk|].
  apply andb_prop in Hd as [Hk' Hd].
  destruct (key_eq k' k) eqn:E; simpl; rewrite Hk'; simpl; auto.
Qed.

Lemma dict_store_distinct d k v :
  distinct_keys d = true → distinct_keys (dict_store d k v) = true.
Proof.
  induction d as [|[k' v'] d IH]; simpl; [done|]. intros H.
  apply andb_prop in H as [Hk' Hd].
  destruct (key_eq k' k) eqn:E; simpl.
  - by rewrite Hk', Hd.
  - rewrite IH by done. rewrite andb_true_r.
    apply (dict_store_keys_all (λ x, negb (key_eq k' x))); [done|by rewrite E].
Qed.

Lemma dict_store_length d k v : (length (dict_store d k v) ≤ S (length d))%nat.
Proof.
  induction d as [|[k' v'] d IH]; simpl; [lia|].
  destruct (key_eq k' k); simpl; lia.
Qed.

Lemma dict_of_invariants kvs : ∀ d,
  Forall (λ kv, hashable kv.1 = true) kvs →
  distinct_keys d = true → forallb (λ kv, hashable kv.1) d = true →
  distinct_keys (dict_of d kvs) = true ∧
  forallb (λ kv, hashable kv.1) (dict_of d kvs) = true ∧
  (length (dict_of d kvs) ≤ length d + length kvs)%nat.
Proof.
  induction kvs as [|[k v] kvs IH]; intros d Hall Hd Hh; simpl.
  - repeat split; [done..|lia].
  - apply Forall_cons in Hall as [Hk Hall]. simpl in Hk.
    destruct (IH (dict_store d k v) Hall) as (? & ? & ?).
    + by apply dict_store_distinct.
    + by apply (dict_store_keys_all hashable).
    + pose proof (dict_store_length d k v). repeat split; [done..|lia].
Qed.

(** X8.  The dict a dictionary (marker 0x18) decodes to has only hashable
    keys, no two of them equal as Python compares keys ([0], [False] and
    the like count as one key), and at most as many items as the count byte
    says, hence at most 255. *)
Theorem decoded_dict_keys_distinct c rest v r :
  Parser_parse (x18 :: c :: rest) = Ok (v, r) →
  ∃ d, v = VDict d ∧
       distinct_keys d = true ∧
       forallb (λ kv, hashable kv.1) d = true ∧
       Z.of_nat (length d) ≤ byte_val c ≤ 255.
Proof.
  rewrite (Parser_parse_registered x18 _ Dict) by done.
  unfold class_parse, Dict_parse. intros H.
  apply bind_Ok in H as ([d r1] & Hloop & H). injection H as <- <-.
  apply Dict_loop in Hloop as (kvs & Hkvs & Hall & ->).
  apply decodes_length in Hkvs.
  destruct (dict_of_invariants kvs [] Hall) as (? & ? & ?); [done..|].
  pose proof (byte_val_range c). simpl in *.
  exists (dict_of [] kvs). repeat split; [done..|lia|lia].
Qed.

Lemma decoded_dict_keys_distinct_witness :
  ∃ d, VDict [(VInt 0, VNone)] = VDict d ∧
       distinct_keys d = true ∧
       forallb (λ kv, hashable kv.1) d = true ∧
       Z.of_nat (length d) ≤ byte_val x02 ≤ 255.
Proof.
  apply (decoded_dict_keys_distinct x02 [x66; x65; x68; x64] _ []). reflexivity.
Defined.

(** ** The slots a sparse array writes *)

Lemma sparse_of_app l es1 es2 : sparse_of l (es1 ++ es2) = sparse_of (sparse_of l es1) es2.
Proof. apply foldl_app. Qed.

Lemma sparse_of_last l es1 idx val es2 :
  (Z.to_nat idx < length l)%nat →
  Forall (λ e, Z.to_nat e.1 ≠ Z.to_nat idx) es2 →
  sparse_of l (es1 ++ (idx, val) :: es2) !! Z.to_nat idx = Some val.
Proof.
  intros Hlt Hes2. rewrite sparse_of_app. simpl.
  change (foldl _ ?l0 es2) with (sparse_of l0 es2).
  rewrite sparse_of_untouched by done.
  apply list_lookup_insert_eq. by rewrite sparse_of_length.
Qed.

(** X9.  A sparse array (marker 0x3c) whose header and [n] entries decode,
    all indices below the length, is accepted, and every written slot holds
    the value of the last entry written to it: entries are applied in input
    order and a later entry for an index replaces an earlier one. *)
Theorem sparse_array_last_write_wins b t r1 len r2 n r3 es rest :
  Type_parse b = Ok (t, r1) →
  Integer_parse r1 = Ok (len, r2) →
  Integer_parse r2 = Ok (n, r3) →
  decodes (sparse_entry Parser_parse) (Z.to_nat n) r3 es rest →
  Forall (λ e, e.1 < len) es →
  ∃ l, Parser_parse (x3c :: b) = Ok (VList l, rest) ∧
       ∀ es1 idx val es2,
         es = es1 ++ (idx, val) :: es2 →
         Forall (λ e, e.1 ≠ idx) es2 →
         l !! Z.to_nat idx = Some val.
Proof.
  intros Ht Hlen Hn Hes Hall.
  pose proof (Integer_parse_range _ _ _ Hlen) as Hrange.
  pose proof (sparse_entries_nonneg _ _ _ _ _ Hes) as Hnonneg.
  exists (sparse_of (replicate (Z.to_nat len) VNone) es). split.
  - rewrite (Parser_parse_registered x3c _ SparseArray) by done.
    unfold class_parse, SparseArray_parse.
    rewrite Ht; simpl. rewrite Hlen; simpl. rewrite Hn; simpl.
    assert (for_range (Z.to_nat n) (SparseArray_body Parser_parse)
              (replicate (Z.to_nat len) VNone, r3) =
            Ok (sparse_of (replicate (Z.to_nat len) VNone) es, rest)) as ->; [|done].
    apply SparseArray_loop. exists es. repeat split; [done|].
    rewrite length_replicate, Z2Nat.id by lia.
    apply Forall_forall. intros e He.
    eapply Forall_forall in Hall; [|done]. eapply Forall_forall in Hnonneg; [|done]. lia.
  - intros es1 idx val es2 -> Hes2.
    apply Forall_app in Hall as [_ Hall]. apply Forall_cons in Hall as [Hidx _].
    apply Forall_app in Hnonneg as [_ Hnonneg].
    apply Forall_cons in Hnonneg as [Hidx0 Hnonneg]. simpl in *.
    apply sparse_of_last; [rewrite length_replicate; lia|].
    apply Forall_forall. intros e He Heq.
    eapply Forall_forall in Hes2; [|done]. eapply Forall_forall in Hnonneg; [|done].
    simpl in *. apply Hes2. lia.
Qed.

Lemma sparse_array_last_write_wins_witness :
  ∃ l, Parser_parse [x3c; x2b; x00; x02; x02; x01; x67; x01; x68] = Ok (VList l, []) ∧
       ∀ es1 idx val es2,
         [(1, VBool true); (1, VBool false)] = es1 ++ (idx, val) :: es2 →
         Forall (λ e, e.1 ≠ idx) es2 →
         l !! Z.to_nat idx = Some val.
Proof.
  apply (sparse_array_last_write_wins [x2b; x00; x02; x02; x01; x67; x01; x68]
           (VInt 0) [x02; x02; x01; x67; x01; x68] 2 [x02; x01; x67; x01; x68]
           2 [x01; x67; x01; x68]); try reflexivity.
  - apply decodes_next with [x01; x68]; [reflexivity|].
    apply decodes_next with []; [reflexivity|]. apply decodes_done.
  - repeat constructor.
Defined.

(** ** Strings *)

Lemma Integer_parse_nil_IndexError : Integer_parse [] = Raise IndexError.
Proof. reflexivity. Qed.

Lemma utf8_decode_ascii s :
  Forall (λ c, byte_val c < 128) s → utf8_decode s = Some (byte_val <$> s).
Proof.
  induction 1 as [|c s Hc _ IH]; [done|].
  simpl. replace (byte_val c <? 128) with true by (symmetry; apply Z.ltb_lt; lia).
  by rewrite IH.
Qed.

(** X11.  String round trip on ASCII text: a varint length followed by that
    many bytes below 0x80 decodes, by [String.parse] and through the string
    markers 0x05 and 0x1e alike, to the text whose characters are those
    bytes, and the bytes after the payload are returned untouched. *)
Theorem ascii_string_round_trip (s rest : bytes) :
  Z.of_nat (length s) < 2 ^ 28 →
  Forall (λ c, byte_val c < 128) s →
  let b := encode_varint (Z.of_nat (length s)) ++ s ++ rest in
  String_parse b = Ok (byte_val <$> s, rest) ∧
  Parser_parse (x05 :: b) = Ok (VStr (byte_val <$> s), rest) ∧
  Parser_parse (x1e :: b) = Ok (VStr (byte_val <$> s), rest).
Proof.
  intros Hlen Hs b.
  assert (Hint : Integer_parse b = Ok (Z.of_nat (length s), s ++ rest)).
  { apply Integer_parse_encode. lia. }
  assert (Hstr : String_parse b = Ok (byte_val <$> s, rest)).
  { unfold String_parse. destruct b as [|c b'] eqn:Hb.
    - by rewrite Integer_parse_nil_IndexError in Hint.
    - rewrite Hint; simpl. rewrite Nat2Z.id, take_app_length, drop_app_length.
      unfold bytes_decode. by rewrite utf8_decode_ascii. }
  split; [done|]. split.
  - rewrite (Parser_parse_registered x05 _ String_) by done. simpl. by rewrite Hstr.
  - rewrite (Parser_parse_registered x1e _ String_) by done. simpl. by rewrite Hstr.
Qed.

Lemma ascii_string_round_trip_witness :
  Parser_parse (x05 :: encode_varint 2 ++ [x68; x69] ++ [xff]) = Ok (VStr (lit "hi"), [xff]).
Proof.
  apply (ascii_string_round_trip [x68; x69] [xff]).
  - vm_compute. reflexivity.
  - repeat constructor.
Defined.

(** ** Where an exception can come from *)

Lemma bind_Raise {A B} (m : result A) (f : A → result B) e :
  m ≫= f = Raise e ↔ m = Raise e ∨ ∃ x, m = Ok x ∧ f x = Raise e.
Proof.
  destruct m as [x|e'|]; simpl; split.
  - intros H. right. by exists x.
  - intros [H|(y & Hy & H)]; [discriminate|]. by injection Hy as ->.
  - intros [= ->]. by left.
  - intros [H|(y & H & _)]; [by injection H as ->|discriminate].
  - discriminate.
  - intros [H|(y & H & _)]; discriminate.
Qed.

(** Splits a raising chain of binds at the step that raises. *)
Ltac raise_inv H :=
  repeat (first
    [ apply bind_Raise in H as [H|([? ?] & ? & H)]; simpl in H
    | apply bind_Raise in H as [H|(? & ? & H)]; simpl in H ]);
  try discriminate H.

Lemma for_range_Raise {S} (I : S → Prop) (body : S → result S) n s e :
  (∀ s1 s2, I s1 → body s1 = Ok s2 → I s2) →
  I s → for_range n body s = Raise e → ∃ s1, I s1 ∧ body s1 = Raise e.
Proof.
  intros Hstep. revert s. induction n as [|n IH]; intros s Hs H; simpl in H; [done|].
  apply bind_Raise in H as [H|(s2 & E & H)]; eauto.
Qed.

Lemma Integer_parse_Raise b e : Integer_parse b = Raise e → tame e.
Proof.
  intros H. apply (Integer_while_Raise b 0 0%nat e) in H as [-> _]; [by left|lia].
Qed.

Lemma String_parse_Raise b e : String_parse b = Raise e → tame e.
Proof.
  unfold String_parse. destruct b as [|c b]; [intros [= <-]; by left|]. intros H.
  raise_inv H; [by eapply Integer_parse_Raise|].
  unfold bytes_decode in H. destruct (utf8_decode _); [done|].
  injection H as <-. right. by left.
Qed.

Lemma Type_parse_Raise b e : Type_parse b = Raise e → tame e.
Proof.
  unfold Type_parse. destruct b as [|c b]; [intros [= <-]; by left|]. intros H.
  repeat case_match; raise_inv H;
    eauto using Integer_parse_Raise, String_parse_Raise.
  injection H as <-. right. right. eauto.
Qed.

Lemma FormattedString_parse_Raise b e : FormattedString_parse b = Raise e → tame e.
Proof.
  unfold FormattedString_parse. destruct b as [|c b]; [intros [= <-]; by left|]. intros H.
  repeat case_match; raise_inv H;
    eauto using Integer_parse_Raise, String_parse_Raise.
  injection H as <-. right. right. eauto.
Qed.

Lemma Enum_parse_Raise b e : Enum_parse b = Raise e → tame e ∨ e = UnboundLocalError.
Proof.
  unfold Enum_parse. destruct b as [|c b]; [intros [= <-]; left; by left|]. intros H.
  raise_inv H; [|left; by eapply Integer_parse_Raise].
  repeat case_match; raise_inv H;
    eauto using Integer_parse_Raise, String_parse_Raise.
  injection H as <-. by right.
Qed.

Lemma StringArray_parse_Raise b e : StringArray_parse b = Raise e → tame e.
Proof.
  unfold StringArray_parse. intros H.
  raise_inv H; [by eapply Integer_parse_Raise|].
  apply (for_range_Raise (λ _, True)) in H as ([la ra] & _ & H); [|done..].
  rewrite StringArray_body_String_parse in H. raise_inv H. by eapply String_parse_Raise.
Qed.

Lemma RGBA_parse_Raise b e : RGBA_parse b = Raise e → tame e.
Proof.
  unfold RGBA_parse. intros H. repeat case_match; try done; injection H as <-; by left.
Qed.

Section Blame.
Variable P : bytes → result (value * bytes).
Variable blame : bytes → exn → Prop.
Hypothesis P_consumes : consumes P.
Hypothesis blame_suffix : ∀ c b e, c `suffix_of` b → blame c e → blame b e.
Hypothesis P_Raise : ∀ c e, P c = Raise e → tame e ∨ blame c e.

Lemma P_Raise_within c b e :
  c `suffix_of` b → P c = Raise e → tame e ∨ blame b e.
Proof. intros Hc H. apply P_Raise in H as [?|?]; eauto. Qed.

(** A loop over [P] that raises has called [P] on a suffix of the bytes it
    started with, or raised in one of its own steps. *)
Lemma loop_Raise {L} (body : L * bytes → result (L * bytes)) n l remain e b :
  (∀ l1 r1 l2 r2, body (l1, r1) = Ok (l2, r2) → r2 `suffix_of` r1) →
  remain `suffix_of` b →
  for_range n body (l, remain) = Raise e →
  ∃ l1 r1, r1 `suffix_of` b ∧ body (l1, r1) = Raise e.
Proof.
  intros Hbody Hrem H.
  apply (for_range_Raise (λ st, st.2 `suffix_of` b)) in H as ([l1 r1] & ? & ?); eauto.
  intros [l1 r1] [l2 r2] Hr1 E. simpl in *. apply (suffix_chain _ r1); eauto.
Qed.

Lemma class_parse_Raise cls b e :
  class_parse P cls b = Raise e →
  tame e ∨ blame b e ∨ (cls = Dict ∧ e = TypeError) ∨ (cls = Enum ∧ e = UnboundLocalError).
Proof.
  destruct cls; simpl; intros H; try done.
  - raise_inv H. left. by eapply Integer_parse_Raise.
  - raise_inv H. left. by eapply String_parse_Raise.
  - apply Enum_parse_Raise in H as [?| ->]; auto.
  - unfold Pair_parse in H. raise_inv H.
    + apply (P_Raise_within b b) in H as [?|?]; auto.
    + apply P_consumes in H0. apply (P_Raise_within _ b) in H as [?|?]; auto.
  - unfold Triplet_parse in H. raise_inv H.
    + apply (P_Raise_within b b) in H as [?|?]; auto.
    + apply P_consumes in H0. apply (P_Raise_within _ b) in H as [?|?]; auto.
    + apply P_consumes in H0, H1.
      apply (P_Raise_within _ b) in H as [?|?]; auto. by apply (suffix_chain _ l).
  - left. by eapply RGBA_parse_Raise.
  - left. by eapply StringArray_parse_Raise.
  - unfold Array_parse in H. raise_inv H; [left; by eapply Integer_parse_Raise|].
    apply Integer_parse_consumes in H0.
    apply (loop_Raise _ _ _ _ _ b) in H as (la & ra & Hra & H);
      [|by apply Array_body_consumes|done].
    unfold Array_body in H. raise_inv H.
    apply (P_Raise_within _ b) in H as [?|?]; auto.
  - unfold StringRef_parse in H. raise_inv H. left. by eapply Integer_parse_Raise.
  - left. by eapply FormattedString_parse_Raise.
  - unfold SparseArray_parse in H.
    raise_inv H; try (left; by eauto using Integer_parse_Raise, Type_parse_Raise).
    apply Type_parse_consumes in H0. apply Integer_parse_consumes in H1, H2.
    apply (loop_Raise _ _ _ _ _ b) in H as (la & ra & Hra & H);
      [|by apply SparseArray_body_consumes|by repeat (etrans; [done|])].
    unfold SparseArray_body in H. raise_inv H.
    + left. by eapply Integer_parse_Raise.
    + apply Integer_parse_consumes in H3.
      apply (P_Raise_within _ b) in H as [?|?]; auto. by apply (suffix_chain _ ra).
    + unfold list_setitem in H. case_match; [done|]. injection H as <-. left. by left.
  - unfold Dict_parse in H. destruct b as [|c b]; [injection H as <-; left; by left|].
    raise_inv H.
    apply (loop_Raise _ _ _ _ _ (c :: b)) in H as (la & ra & Hra & H);
      [|by apply Dict_body_consumes|by apply suffix_cons_r].
    unfold Dict_body in H. raise_inv H.
    + apply (P_Raise_within _ (c :: b)) in H as [?|?]; auto.
    + apply P_consumes in H0.
      apply (P_Raise_within _ (c :: b)) in H as [?|?]; auto. by apply (suffix_chain _ ra).
    + unfold dict_setitem in H. case_match; [done|]. injection H as <-. auto.
  - unfold TypedArray_parse in H.
    raise_inv H; try (left; by eauto using Integer_parse_Raise, Type_parse_Raise).
    apply Type_parse_consumes in H0. apply Integer_parse_consumes in H1.
    apply (loop_Raise _ _ _ _ _ b) in H as (la & ra & Hra & H);
      [|by apply Array_body_consumes|by etrans].
    unfold Array_body in H. raise_inv H.
    apply (P_Raise_within _ b) in H as [?|?]; auto.
Qed.
End Blame.

Lemma needs_marker_suffix c b e : c `suffix_of` b → needs_marker c e → needs_marker b e.
Proof.
  intros [k ->] [[-> H]|[-> H]]; [left|right]; (split; [done|]);
    apply elem_of_app; by right.
Qed.

Lemma registry_Dict marker : registry marker = Ok Dict → marker = x18.
Proof. by destruct marker. Qed.

Lemma registry_Enum marker : registry marker = Ok Enum → marker = x0b.
Proof. by destruct marker. Qed.

Lemma Parser_depth_Raise d : ∀ b e,
  Parser_depth d b = Raise e → tame e ∨ needs_marker b e.
Proof.
  induction d as [|d IH]; intros b e H; [done|]. simpl in H.
  unfold Parser_body in H. destruct b as [|marker remain]; [injection H as <-; left; by left|].
  destruct (registry marker) as [cls|e'|] eqn:Hreg; simpl in H.
  - destruct (class_parse (Parser_depth d) cls remain) as [?|e'|] eqn:Hcls; [done| |done].
    assert (tame e ∨ e' = e) as [?| ->]; [|by left|].
    { destruct e'; simpl in H; injection H as <-; auto. left. right. right. eauto. }
    apply (class_parse_Raise _ needs_marker (Parser_depth_consumes d)
             needs_marker_suffix IH) in Hcls
      as [?|[Hb|[[-> ->]|[-> ->]]]]; [by left|right..].
    + apply (needs_marker_suffix remain); [by apply suffix_cons_r|done].
    + apply registry_Dict in Hreg as ->. left. split; [done|]. apply elem_of_cons. by left.
    + apply registry_Enum in Hreg as ->. right. split; [done|]. apply elem_of_cons. by left.
  - left. destruct e'; simpl in H; injection H as <-; try (by left); try (right; by left);
      right; right; eauto.
    all: by destruct marker.
  - done.
Qed.

(** X13.  Where the two crashes of the decoding code come from: a
    [TypeError] is raised only on an input that contains the dictionary marker
    0x18, and an [UnboundLocalError] only on one that contains the enum marker
    0x0b.  An input without these bytes ends in a value or in an exception of
    another kind. *)
Theorem crashes_need_their_marker b :
  (Parser_parse b = Raise TypeError → x18 ∈ b) ∧
  (Parser_parse b = Raise UnboundLocalError → x0b ∈ b).
Proof.
  assert (H : ∀ e, Parser_parse b = Raise e → tame e ∨ needs_marker b e)
    by (intros e; apply Parser_depth_Raise).
  split.
  - intros He. by apply H in He as [[?|[?|[? ?]]]|[[_ ?]|[? _]]].
  - intros He. by apply H in He as [[?|[?|[? ?]]]|[[? _]|[_ ?]]].
Qed.

Lemma crashes_need_their_marker_witness :
  x18 ∈ [x16; x01; x18; x01; x16; x00; x64].
Proof.
  apply (proj1 (crashes_need_their_marker [x16; x01; x18; x01; x16; x00; x64])).
  reflexivity.
Defined.

(** ** Keys a dictionary cannot have *)

Lemma registry_container marker cls :
  registry marker = Ok cls →
  marker = x14 ∨ marker = x15 ∨ marker = x16 ∨ marker = x3c ∨ marker = x18 →
  ∀ v, shape cls v → hashable v = false.
Proof.
  intros Hreg Hm v Hv.
  by destruct Hm as [->|[->|[->|[->| ->]]]]; injection Hreg as <-; destruct Hv as [? ->].
Qed.

(** X14.  A dictionary (marker 0x18) with a non-zero count byte whose first
    key starts with one of the markers 0x14, 0x15, 0x16, 0x3c and 0x18, those
    of the arrays and of the dictionary, never decodes: whatever follows, the
    outcome is an exception. *)
Theorem dict_rejects_container_markers c marker rest :
  0 < byte_val c →
  marker = x14 ∨ marker = x15 ∨ marker = x16 ∨ marker = x3c ∨ marker = x18 →
  ∃ e, Parser_parse (x18 :: c :: marker :: rest) = Raise e.
Proof.
  intros Hc Hm.
  destruct (Parser_parse (x18 :: c :: marker :: rest)) as [[v r]|e|] eqn:H;
    [|by exists e|by apply Parser_parse_total in H].
  exfalso. rewrite (Parser_parse_registered x18 _ Dict) in H by done.
  unfold class_parse, Dict_parse in H.
  apply bind_Ok in H as ([d r1] & Hloop & _).
  apply Dict_loop in Hloop as (kvs & Hkvs & Hall & _).
  destruct (Z.to_nat (byte_val c)) as [|n] eqn:Hn; [lia|].
  inversion Hkvs as [|? ? [k v0] r2 kvs' ? He _]; subst.
  apply Forall_cons in Hall as [Hk _]. simpl in Hk.
  apply bind_Ok in He as ([k' r3] & Hkey & He).
  apply bind_Ok in He as ([v' r4] & _ & He). injection He as -> _ _.
  assert (∃ cls, registry marker = Ok cls) as [cls Hreg]
    by (destruct Hm as [->|[->|[->|[->| ->]]]]; eauto).
  rewrite (Parser_parse_registered _ _ _ Hreg) in Hkey.
  apply class_parse_shape in Hkey.
  by rewrite (registry_container _ _ Hreg Hm _ Hkey) in Hk.
Qed.

Lemma dict_rejects_container_markers_witness :
  ∃ e, Parser_parse [x18; x01; x16; x00; x64] = Raise e.
Proof.
  apply (dict_rejects_container_markers x01 x16 [x00; x64]).
  - vm_compute. reflexivity.
  - right. right. by left.
Defined.
